(** * source-map-explorer: the helpers of [src/lib/helpers.ts]

    A shallow embedding of the pure helpers of the byte-attribution
    engine ([mergeRanges], [getOccurrencesCount], [getCommonPathPrefix],
    [splitLinesByEOL], [formatBytes]) together with the properties the
    specification states about them.

    Conventions of the embedding:
    - byte offsets ([start], [end]) and byte counts are JavaScript numbers
      holding integers; they are modelled as [Z];
    - JavaScript strings are modelled as [string] (a sequence of code
      units), arrays as [list]; where a claim is about mutation, arrays
      live in a store and are handled through references;
    - a call that may throw returns an [outcome]; a [while] loop whose
      termination is not evident from its shape takes a fuel argument and
      returns [None] when the fuel is exhausted.

    The first part holds the definitions, the second part the lemmas. *)

From Stdlib Require Import ZArith Lia Ascii String DecimalString.
From stdpp Require Import base list gmap strings.
From Equations Require Import Equations.

Local Open Scope Z_scope.

(** * Part I: definitions *)

(** ** Outcomes of a call: a value, or a JavaScript exception *)

Inductive JsError := TypeError | RangeError.

Inductive outcome (A : Type) :=
| Returned (a : A)
| Thrown (e : JsError).
Arguments Returned {A} a.
Arguments Thrown {A} e.

Definition andThen {A B} (o : outcome A) (f : A → outcome B) : outcome B :=
  match o with
  | Returned a => f a
  | Thrown e => Thrown e
  end.

(** ** Generic predicates on lists *)

(** [adjacent R l]: every two neighbours of [l] are related by [R]. *)
Fixpoint adjacent {A} (R : A → A → Prop) (l : list A) : Prop :=
  match l with
  | a :: l' =>
      match l' with
      | b :: _ => R a b ∧ adjacent R l'
      | [] => True
      end
  | [] => True
  end.

(** [pairwise R l]: every element is related to every later element. *)
Fixpoint pairwise {A} (R : A → A → Prop) (l : list A) : Prop :=
  match l with
  | a :: l' => Forall (R a) l' ∧ pairwise R l'
  | [] => True
  end.

(** ** Strings: the built-in methods the helpers call *)

Definition LF : string := String "010" "".
Definition CR_LF : string := String "013" (String "010" "").

(** [s.substring(n)] *)
Fixpoint sdrop (n : nat) (s : string) : string :=
  match n, s with
  | S n', String _ s' => sdrop n' s'
  | _, _ => s
  end.

(** [s1] is a prefix of [s2], as a proposition *)
Definition isPrefix (s1 s2 : string) : Prop := ∃ rest, s2 = s1 +:+ rest.

(** the least [k] such that [sub] occurs in [s] at offset [k] *)
Fixpoint search (sub s : string) : option nat :=
  if String.prefix sub s then Some 0%nat
  else
    match s with
    | EmptyString => None
    | String _ s' => S <$> search sub s'
    end.

(** [s.indexOf(sub, position)]: the start position is clamped to
    [0 .. s.length]; the result is [-1] when there is no occurrence at or
    after it. *)
Definition indexOf (s sub : string) (position : Z) : Z :=
  let len := Z.of_nat (String.length s) in
  let from := Z.min (Z.max position 0) len in
  match search sub (sdrop (Z.to_nat from) s) with
  | Some k => from + Z.of_nat k
  | None => -1
  end.

(** [s.split(sep)] for a non-empty separator [sep = String a sep'],
    scanning [s] from the left; [cur] is the piece being built. *)
Equations? splitOn (a : ascii) (sep' : string) (s : string) (cur : string)
    : list string by wf (String.length s) lt :=
  splitOn a sep' EmptyString cur := [cur];
  splitOn a sep' (String c s') cur
    with String.prefix (String a sep') (String c s') := {
    | true => cur :: splitOn a sep' (sdrop (String.length sep') s') ""
    | false => splitOn a sep' s' (cur +:+ String c "") }.
Proof.
  clear. revert s'.
  induction (String.length sep') as [|n IH]; intros [|? s']; simpl; try lia.
  specialize (IH s'). lia.
Qed.

(** [s.split("")]: the code units of [s] *)
Fixpoint codeUnits (s : string) : list string :=
  match s with
  | EmptyString => []
  | String c s' => String c "" :: codeUnits s'
  end.

(** [s.split(sep)] with a string separator *)
Definition split (sep s : string) : list string :=
  match sep with
  | EmptyString => codeUnits s
  | String a sep' => splitOn a sep' s ""
  end.

(** [PATH_SEPARATOR_REGEX = /(\/)/]: one slash, captured *)
Definition PATH_SEPARATOR : ascii := "/".

(** [s.split(PATH_SEPARATOR_REGEX)]: the pieces between slashes; the
    capture group puts each matched slash into the result as a token of
    its own. [cur] is the piece being built. *)
Fixpoint splitSeparator (s : string) (cur : string) : list string :=
  match s with
  | EmptyString => [cur]
  | String c s' =>
      if decide (c = PATH_SEPARATOR)
      then cur :: String c "" :: splitSeparator s' ""
      else splitSeparator s' (cur +:+ String c "")
  end.

(** [l.join('')] *)
Definition join (l : list string) : string := String.concat "" l.

(** [Array.prototype.sort()] without comparator on an array of strings:
    ascending in the code-unit order. *)
Fixpoint sortInsert (x : string) (l : list string) : list string :=
  match l with
  | [] => [x]
  | y :: l' => if String.leb x y then x :: l else y :: sortInsert x l'
  end.

Fixpoint arraySort (l : list string) : list string :=
  match l with
  | [] => []
  | x :: l' => sortInsert x (arraySort l')
  end.

(** the order of the sort, as a proposition *)
Definition lebP (x y : string) : Prop := String.leb x y = true.

(** ** Range merger *)

Section merger.
(** The type of [source] comes from [./types], which declares
    [MappingRange]; the merger only compares sources with [===]. *)
Context {Source : Type} `{!EqDecision Source}.

Record MappingRange := mkRange { start : Z; end_ : Z; source : Source }.

(** The [for] loop, for [i] running over [ranges[1..]]:
    [prev] is [ranges[i - 1]], [rest] is [ranges[i..]], and
    [start0], [end0], [source0] are the loop variables
    [start], [end], [source]. *)
Fixpoint mergeLoop (prev : MappingRange) (rest : list MappingRange)
    (start0 end0 : Z) (source0 : Source)
    (mergedRanges : list MappingRange) : list MappingRange :=
  match rest with
  | [] => mergedRanges ++ [mkRange start0 end0 source0]
  | r :: rest' =>
      let isSourceMatch := bool_decide (source r = source prev) in
      let isConsecutive := bool_decide (start r - end_ prev = 1) in
      if isSourceMatch && isConsecutive
      then mergeLoop r rest' start0 (end_ r) source0 mergedRanges
      else mergeLoop r rest' (start r) (end_ r) (source r)
             (mergedRanges ++ [mkRange start0 end0 source0])
  end.

(** [mergeRanges]: the single-range list is returned as it is; on the
    empty list the destructuring of [ranges[0]] (which is [undefined])
    throws a [TypeError]. *)
Definition mergeRanges (ranges : list MappingRange)
    : outcome (list MappingRange) :=
  let rangesCount := length ranges in
  if decide (rangesCount = 1%nat) then Returned ranges
  else
    match ranges with
    | [] => Thrown TypeError
    | r0 :: rest =>
        Returned (mergeLoop r0 rest (start r0) (end_ r0) (source r0) [])
    end.

(** *** Vocabulary of the specification *)

(** a range holds [end - start + 1 >= 1] bytes *)
Definition wf (r : MappingRange) : Prop := start r ≤ end_ r.

(** each range starts right after the previous one ends *)
Definition contiguous (l : list MappingRange) : Prop :=
  adjacent (λ a b, start b = end_ a + 1) l.

(** no two ranges share a byte; earlier ranges lie before later ones *)
Definition nonoverlapping (l : list MappingRange) : Prop :=
  pairwise (λ a b, end_ a < start b) l.

(** ranges are well formed and their starts increase *)
Definition ordered (l : list MappingRange) : Prop :=
  Forall wf l ∧ pairwise (λ a b, start a < start b) l.

(** byte [z] lies in some range of [l] *)
Definition covered (l : list MappingRange) (z : Z) : Prop :=
  Exists (λ r, start r ≤ z ≤ end_ r) l.

(** two neighbours that the merger coalesces *)
Definition joinable (a b : MappingRange) : Prop :=
  source b = source a ∧ start b - end_ a = 1.

(** the loop without its accumulator [mergedRanges] *)
Fixpoint groups (prev : MappingRange) (rest : list MappingRange)
    (start0 end0 : Z) (source0 : Source) : list MappingRange :=
  match rest with
  | [] => [mkRange start0 end0 source0]
  | r :: rest' =>
      if bool_decide (source r = source prev)
         && bool_decide (start r - end_ prev = 1)
      then groups r rest' start0 (end_ r) source0
      else mkRange start0 end0 source0
             :: groups r rest' (start r) (end_ r) (source r)
  end.
End merger.

Arguments MappingRange Source : clear implicits.

(** a range list as the attribution engine produces them *)
Definition sampleRanges : list (MappingRange string) :=
  [mkRange 0 3 "a.js"; mkRange 4 5 "a.js"; mkRange 6 9 "b.js";
   mkRange 10 10 "a.js"].

(** ** Occurrence counter *)

(** The [while (position !== -1)] loop of [getOccurrencesCount]. *)
Fixpoint countLoop (fuel : nat) (subString string_ : string)
    (count : nat) (position : Z) : option nat :=
  match fuel with
  | O => None
  | S fuel' =>
      if bool_decide (position ≠ -1)
      then
        let subStringLength := Z.of_nat (String.length subString) in
        countLoop fuel' subString string_ (count + 1)%nat
          (indexOf string_ subString (position + subStringLength))
      else Some count
  end.

Definition getOccurrencesCount (fuel : nat) (subString string_ : string)
    : option nat :=
  countLoop fuel subString string_ 0%nat (indexOf string_ subString 0).

(** ** Common-prefix resolver *)

(** [while (i < L && a1[i] === a2[i]) i++], with [remaining = L - i];
    [a2[i]] may be [undefined], which is never [===] to a string. *)
Fixpoint commonLoop (remaining : nat) (a1 a2 : list string) (i : nat) : nat :=
  match remaining with
  | O => i
  | S remaining' =>
      if bool_decide (a1 !! i = a2 !! i)
      then commonLoop remaining' a1 a2 (S i)
      else i
  end.

(** The part of [getCommonPathPrefix] after the sort; [A[0]] and
    [A[A.length - 1]] are [undefined] on an empty array, where calling
    [split] throws. *)
Definition prefixOfSorted (A : list string) : outcome string :=
  match A !! 0%nat, A !! (length A - 1)%nat with
  | Some first, Some final =>
      let a1 := splitSeparator first "" in
      let a2 := splitSeparator final "" in
      let L := length a1 in
      let i := commonLoop L a1 a2 0 in
      Returned (join (take i a1))
  | _, _ => Thrown TypeError
  end.

(** [getCommonPathPrefix] on array values *)
Definition getCommonPathPrefix (paths : list string) : outcome string :=
  if decide (length paths < 2)%nat then Returned ""
  else prefixOfSorted (arraySort paths).

(** The longest run of leading tokens that all paths share, following
    the words of the specification ("the longest string prefix shared by
    all paths, prefix boundaries aligned to path-separator characters"). *)
Fixpoint commonTokens (t1 t2 : list string) : list string :=
  match t1, t2 with
  | x :: t1', y :: t2' => if decide (x = y) then x :: commonTokens t1' t2' else []
  | _, _ => []
  end.

Definition alignedCommonPrefix (paths : list string) : string :=
  match paths with
  | [] => ""
  | p :: ps =>
      join (foldl (λ acc q, commonTokens acc (splitSeparator q ""))
                  (splitSeparator p "") ps)
  end.

(** *** The same function on array references

    Arrays are mutable objects: [concat] allocates a new array and [sort]
    sorts its receiver in place. *)

Module Store.
Definition ref := positive.
Abbreviation store := (gmap positive (list string)).

Definition M (A : Type) : Type := store → outcome (A * store).

Definition ret {A} (a : A) : M A := λ h, Returned (a, h).

Definition bind {A B} (m : M A) (f : A → M B) : M B :=
  λ h, match m h with
       | Returned (a, h') => f a h'
       | Thrown e => Thrown e
       end.

Definition lift {A} (o : outcome A) : M A :=
  λ h, match o with
       | Returned a => Returned (a, h)
       | Thrown e => Thrown e
       end.

(** reading the elements of the array behind [r] *)
Definition read (r : ref) : M (list string) :=
  λ h, match h !! r with
       | Some a => Returned (a, h)
       | None => Thrown TypeError
       end.

(** [r.concat()]: a new array with the same elements *)
Definition concat (r : ref) : M ref :=
  λ h, match h !! r with
       | Some a => let r' := fresh (dom h) in Returned (r', <[r' := a]> h)
       | None => Thrown TypeError
       end.

(** [r.sort()]: sorts the array behind [r] and returns [r] itself *)
Definition sort (r : ref) : M ref :=
  λ h, match h !! r with
       | Some a => Returned (r, <[r := arraySort a]> h)
       | None => Thrown TypeError
       end.
End Store.

Notation "'let!' x ':=' m 'in' k" := (Store.bind m (λ x, k))
  (at level 10, x name, m at level 100, k at level 200, only parsing).

Definition getCommonPathPrefixRef (paths : Store.ref) : Store.M string :=
  let! ps := Store.read paths in
  if decide (length ps < 2)%nat then Store.ret ""
  else
    let! copy := Store.concat paths in
    let! A := Store.sort copy in
    let! sorted := Store.read A in
    Store.lift (prefixOfSorted sorted).

(** A variant that sorts [paths] itself, to compare with. *)
Definition sortInPlaceVariant (paths : Store.ref) : Store.M string :=
  let! ps := Store.read paths in
  if decide (length ps < 2)%nat then Store.ret ""
  else
    let! A := Store.sort paths in
    let! sorted := Store.read A in
    Store.lift (prefixOfSorted sorted).

(** ** Lines and their terminators *)

Record SplitLine := mkSplitLine { line : string; eol : string }.

(** [arr.reduce((acc, e, i, array) => ..., init)], from index [i] on *)
Fixpoint reduceFrom {A B} (f : B → A → nat → B) (i : nat) (l : list A)
    (acc : B) : B :=
  match l with
  | [] => acc
  | e :: l' => reduceFrom f (S i) l' (f acc e i)
  end.

(** the callback of [map], [(line, j, orig) => ({ line, eol: ... })],
    inside the callback of [reduce] at index [i] of [length_] chunks *)
Definition tagLine (i length_ : nat) (orig : list string)
    (j : nat) (line_ : string) : SplitLine :=
  mkSplitLine line_
    (if bool_decide (Z.of_nat j < Z.of_nat (length orig) - 1)
        || bool_decide (Z.of_nat i = Z.of_nat length_ - 1)
     then LF else CR_LF).

(** the callback of [reduce], [(arr, e, i, { length }) => arr.concat(...)] *)
Definition addChunk (length_ : nat) (arr : list SplitLine) (e : string)
    (i : nat) : list SplitLine :=
  let orig := split LF e in
  arr ++ imap (tagLine i length_ orig) orig.

Definition splitLinesByEOL (content : string) : list SplitLine :=
  let chunks := split CR_LF content in
  reduceFrom (addChunk (length chunks)) 0%nat chunks [].

(** Joining the entries again: each line followed by its terminator,
    the terminator of the final entry left out. *)
Fixpoint rejoin (entries : list SplitLine) : string :=
  match entries with
  | [] => ""
  | e :: rest =>
      match rest with
      | [] => line e
      | _ :: _ => line e +:+ eol e +:+ rejoin rest
      end
  end.

(** every line followed by its terminator, the final one included *)
Fixpoint joinAll (entries : list SplitLine) : string :=
  match entries with
  | [] => ""
  | e :: rest => line e +:+ eol e +:+ joinAll rest
  end.

(** ** Numeric formatter *)

Definition BYTE_SIZES : list string :=
  ["B"; "KB"; "MB"; "GB"; "TB"; "PB"; "EB"; "ZB"; "YB"].

Definition SIZE_BASE : Z := 1024.

(** [Math.floor(Math.log(bytes) / Math.log(SIZE_BASE))] for [bytes >= 1],
    in exact arithmetic: with [SIZE_BASE] a power of two this is the
    quotient of the binary logarithms (see [magnitude_spec]). The doubles
    of the engine give the same number as long as the quotient of the
    two logarithms is not within rounding distance of an integer; just
    below a power of 1024 (at [2^50 - 1], say) they give one more. What
    holds for every byte count is therefore stated on [formatBytesVia],
    which leaves this computation open. *)
Definition magnitude (bytes : Z) : Z := Z.log2 bytes / Z.log2 SIZE_BASE.

(** [BYTE_SIZES[exponent]], [None] standing for [undefined] *)
Definition unitAt (exponent : Z) : option string :=
  if bool_decide (0 ≤ exponent) then BYTE_SIZES !! Z.to_nat exponent else None.

(** how a template literal prints [BYTE_SIZES[exponent]] *)
Definition showUnit (u : option string) : string := default "undefined" u.

Definition showNat (n : Z) : string := NilZero.string_of_uint (N.to_uint (Z.to_N n)).

Definition digitChar (d : Z) : ascii := ascii_of_nat (48 + Z.to_nat d).

(** the last [d] decimal digits of [n], most significant first *)
Fixpoint fractionDigits (d : nat) (n : Z) (acc : string) : string :=
  match d with
  | O => acc
  | S d' => fractionDigits d' (n / 10) (String (digitChar (n mod 10)) acc)
  end.

(** [(num / den).toFixed(decimals)] for a positive quotient and
    [decimals <= 100]: the closest multiple of [10^-decimals], the larger
    one on a tie, printed with exactly [decimals] fraction digits. *)
Definition toFixed (num den : Z) (decimals : nat) : string :=
  let scale := 10 ^ Z.of_nat decimals in
  let n := (2 * num * scale + den) / (2 * den) in
  let whole := showNat (n / scale) in
  match decimals with
  | O => whole
  | S _ => whole +:+ "." +:+ fractionDigits decimals (n mod scale) ""
  end.

Fixpoint hasPoint (s : string) : bool :=
  match s with
  | EmptyString => false
  | String c s' => if decide (c = "."%char) then true else hasPoint s'
  end.

Fixpoint dropZeros (reversed : string) : string :=
  match reversed with
  | String c r' => if decide (c = "0"%char) then dropZeros r' else reversed
  | EmptyString => reversed
  end.

(** the template literal applied to [parseFloat(fixed)], for the output of
    [toFixed]: trailing zeros of the fraction go, and so does the point
    when no fraction digit is left. Exact as long as the literal has at
    most 15 significant digits, which covers the default two decimals;
    with more digits [parseFloat] rounds to a double and the shortest
    numeral of that double is printed instead. *)
Definition trimFraction (fixed : string) : string :=
  if hasPoint fixed then
    let r := dropZeros (String.rev fixed) in
    String.rev match r with
               | String c r' => if decide (c = "."%char) then r' else r
               | EmptyString => r
               end
  else fixed.

(** [formatBytes(bytes, decimals)] on integer byte counts. Numbers are
    computed exactly, which is what the doubles do where [magnitude] and
    [trimFraction] are exact (see there); a negative count makes
    [Math.log] return [NaN], which is what gets printed. [toFixed] throws
    outside [0 .. 100] digits. *)
Definition formatBytes (bytes : Z) (decimals : nat) : outcome string :=
  if bool_decide (bytes = 0) then Returned ("0 " +:+ showUnit (BYTE_SIZES !! 0%nat))
  else if bool_decide (100 < decimals)%nat then Thrown RangeError
  else if bool_decide (bytes < 0) then Returned ("NaN " +:+ showUnit None)
  else
    let exponent := magnitude bytes in
    let shown := trimFraction (toFixed bytes (SIZE_BASE ^ exponent) decimals) in
    Returned (shown +:+ " " +:+ showUnit (unitAt exponent)).

(** the default [decimals = 2] *)
Definition formatBytesDefault (bytes : Z) : outcome string := formatBytes bytes 2.

(** [formatBytes] with its two floating-point computations left open:
    [exponentOf bytes] stands for
    [Math.floor(Math.log(bytes) / Math.log(SIZE_BASE))] and
    [shownOf bytes exponent decimals] for the text of
    [parseFloat((bytes / Math.pow(SIZE_BASE, exponent)).toFixed(decimals))],
    each as the doubles of the engine yield it for a positive [bytes].
    The rest is the code as it stands: the test for zero, the range
    check of [toFixed], the lookup [BYTE_SIZES[exponent]] and the
    template literal. *)
Definition formatBytesVia (exponentOf : Z → Z)
    (shownOf : Z → Z → nat → string)
    (bytes : Z) (decimals : nat) : outcome string :=
  if bool_decide (bytes = 0) then Returned ("0 " +:+ showUnit (BYTE_SIZES !! 0%nat))
  else if bool_decide (100 < decimals)%nat then Thrown RangeError
  else if bool_decide (bytes < 0) then Returned ("NaN " +:+ showUnit None)
  else
    let exponent := exponentOf bytes in
    let shown := shownOf bytes exponent decimals in
    Returned (shown +:+ " " +:+ showUnit (unitAt exponent)).

(** the number text in exact arithmetic, as [formatBytes] has it *)
Definition exactShown (bytes exponent : Z) (decimals : nat) : string :=
  trimFraction (toFixed bytes (SIZE_BASE ^ exponent) decimals).

(** [s] ends with [suffix] *)
Definition endsWith (s suffix : string) : Prop := ∃ front, s = front +:+ suffix.

Fixpoint lastChar (s : string) : option ascii :=
  match s with
  | EmptyString => None
  | String c s' => match s' with EmptyString => Some c | _ => lastChar s' end
  end.

(** ** Further vocabulary and helpers *)

Section merger_sizes.
Context {Source : Type}.

(** the number of bytes of a range, [end] being inclusive *)
Definition rangeSize (r : MappingRange Source) : Z := end_ r - start r + 1.

(** the bytes of the ranges whose source satisfies [P] *)
Fixpoint bytesWhere (P : Source → bool) (l : list (MappingRange Source)) : Z :=
  match l with
  | [] => 0
  | r :: l' => (if P (source r) then rangeSize r else 0) + bytesWhere P l'
  end.

Definition totalBytes (l : list (MappingRange Source)) : Z :=
  bytesWhere (λ _, true) l.
End merger_sizes.

Definition bytesOfSource {Source : Type} `{!EqDecision Source}
    (src : Source) (l : list (MappingRange Source)) : Z :=
  bytesWhere (λ x, bool_decide (x = src)) l.

(** [sub] occurs somewhere in [s] *)
Definition occursIn (sub s : string) : Prop :=
  ∃ front back, s = front +:+ sub +:+ back.

(** how often the code unit [a] occurs in [s] *)
Fixpoint countChar (a : ascii) (s : string) : nat :=
  match s with
  | EmptyString => 0%nat
  | String c s' => ((if decide (c = a) then 1 else 0) + countChar a s')%nat
  end.

Definition LF_CHAR : ascii := "010".
Definition CR_CHAR : ascii := "013".

(** the first [n] code units of [s] *)
Fixpoint stake (n : nat) (s : string) : string :=
  match n, s with
  | S n', String c s' => String c (stake n' s')
  | _, _ => ""
  end.

(** [s.substr(from, length_)]: a negative [from] counts from the end of
    [s]; the piece is cut at the end of [s]. *)
Definition substr (s : string) (from length_ : Z) : string :=
  let len := Z.of_nat (String.length s) in
  let first := if bool_decide (from < 0) then Z.max (len + from) 0
               else Z.min from len in
  stake (Z.to_nat length_) (sdrop (Z.to_nat first) s).

(** ** End of line at a position *)

(** The [for] loop of [isEOLAtPosition], with [remaining = line -
    lineIndex] rounds to go; [None] is the early [return false]. *)
Fixpoint lineOffsetLoop (remaining : nat) (string_ : string) (lineOffset : Z)
    : option Z :=
  match remaining with
  | O => Some lineOffset
  | S remaining' =>
      let lineOffsetCrlf := indexOf string_ CR_LF lineOffset in
      let lineOffsetLf := indexOf string_ LF lineOffset in
      if bool_decide (lineOffsetCrlf = -1) && bool_decide (lineOffsetLf = -1)
      then None
      else
        let lineOffset1 :=
          if bool_decide (lineOffsetCrlf = -1) then lineOffsetLf
          else if bool_decide (lineOffsetLf = -1) then lineOffsetCrlf
          else Z.min lineOffsetCrlf lineOffsetLf in
        let eolLength :=
          String.length
            (if bool_decide (lineOffset1 = lineOffsetCrlf) then CR_LF else LF) in
        lineOffsetLoop remaining' string_ (lineOffset1 + Z.of_nat eolLength)
  end.

(** [isEOLAtPosition(string, [line, column])] for integers [line] and
    [column] *)
Definition isEOLAtPosition (string_ : string) (line_ column : Z) : bool :=
  match lineOffsetLoop (Z.to_nat (line_ - 1)) string_ 0 with
  | None => false
  | Some lineOffset =>
      bool_decide (substr string_ (lineOffset + column)
                     (Z.of_nat (String.length CR_LF)) = CR_LF)
      || bool_decide (substr string_ (lineOffset + column)
                        (Z.of_nat (String.length LF)) = LF)
  end.

(** the text after the first line feed of [t], if there is one *)
Definition afterLineFeed (t : string) : option string :=
  match search LF t with
  | Some j => Some (sdrop (S j) t)
  | None => None
  end.

(** the text after the first [k] line feeds of [t], if there are that
    many *)
Fixpoint afterLines (k : nat) (t : string) : option string :=
  match k with
  | O => Some t
  | S k' =>
      match afterLineFeed t with
      | Some t' => afterLines k' t'
      | None => None
      end
  end.

(** the text at the front of [t] is a line terminator *)
Definition startsWithEOL (t : string) : bool :=
  bool_decide (stake 2 t = CR_LF) || bool_decide (stake 1 t = LF).

(** * Part II: properties *)

(** ** Range merger *)

Section merger_facts.
Context {Source : Type} `{!EqDecision Source}.
Implicit Types (r prev : MappingRange Source).
Implicit Types (l rest ranges : list (MappingRange Source)).

Lemma mergeLoop_groups prev rest s e src merged :
  mergeLoop prev rest s e src merged = merged ++ groups prev rest s e src.
Proof.
  revert prev s e src merged.
  induction rest as [|r rest IH]; intros prev s e src merged; simpl.
  - reflexivity.
  - destruct (_ && _).
    + apply IH.
    + rewrite IH, <- app_assoc. reflexivity.
Qed.

Lemma mergeRanges_cons2 r0 r1 rest :
  mergeRanges (r0 :: r1 :: rest)
  = Returned (groups r0 (r1 :: rest) (start r0) (end_ r0) (source r0)).
Proof.
  unfold mergeRanges. cbn [length].
  destruct (decide _) as [Hlen|_]; [discriminate Hlen|].
  rewrite mergeLoop_groups. reflexivity.
Qed.

Lemma mergeRanges_single r : mergeRanges [r] = Returned [r].
Proof. reflexivity. Qed.

Lemma mergeRanges_empty : mergeRanges ([] : list (MappingRange Source)) = Thrown TypeError.
Proof. reflexivity. Qed.

Lemma joinable_decide prev r :
  bool_decide (source r = source prev)
    && bool_decide (start r - end_ prev = 1) = true
  ↔ joinable prev r.
Proof.
  unfold joinable.
  rewrite andb_true_iff, !bool_decide_eq_true. reflexivity.
Qed.

Lemma groups_head prev rest s e src :
  ∃ e' tl, groups prev rest s e src = mkRange s e' src :: tl.
Proof.
  revert prev e. induction rest as [|r rest IH]; intros prev e; simpl.
  - eauto.
  - destruct (_ && _); eauto.
Qed.

(** *** Idempotence *)

(** Neighbours in the output are never joinable: the accumulator keeps
    the end and the source of the range visited last. *)
Lemma groups_separated prev rest s e src :
  e = end_ prev → src = source prev →
  adjacent (λ a b, ¬ joinable a b) (groups prev rest s e src).
Proof.
  revert prev s e src.
  induction rest as [|r rest IH]; intros prev s e src He Hsrc; simpl.
  - exact I.
  - destruct (_ && _) eqn:Hj.
    + apply IH; [reflexivity|].
      apply joinable_decide in Hj. destruct Hj as [Hs _]. congruence.
    + pose proof (IH r (start r) (end_ r) (source r) eq_refl eq_refl) as Hrec.
      destruct (groups_head r rest (start r) (end_ r) (source r))
        as (e' & tl & Heq).
      rewrite Heq in *. cbn [adjacent]. split; [|exact Hrec].
      intros [Hs Hc]. cbn in Hs, Hc. subst e src.
      assert (joinable prev r) as Hyes by (split; assumption).
      apply joinable_decide in Hyes. congruence.
Qed.

(** On a list without joinable neighbours the loop rebuilds its input. *)
Lemma groups_fixed r rest :
  adjacent (λ a b, ¬ joinable a b) (r :: rest) →
  groups r rest (start r) (end_ r) (source r) = r :: rest.
Proof.
  revert r. induction rest as [|r' rest IH]; intros r Hadj.
  - destruct r; reflexivity.
  - cbn [adjacent] in Hadj. destruct Hadj as [Hno Hadj].
    cbn [groups].
    destruct (_ && _) eqn:Hj.
    + apply joinable_decide in Hj. contradiction.
    + rewrite (IH r' Hadj). destruct r; reflexivity.
Qed.

Lemma mergeRanges_fixed l :
  l ≠ [] → adjacent (λ a b, ¬ joinable a b) l → mergeRanges l = Returned l.
Proof.
  destruct l as [|r [|r' rest]]; intros Hne Hadj.
  - contradiction.
  - reflexivity.
  - rewrite mergeRanges_cons2, groups_fixed by exact Hadj. reflexivity.
Qed.

(** What [mergeRanges] returns has no joinable neighbours left, unless
    it is the untouched single-range input. *)
Lemma mergeRanges_returns ranges :
  ranges ≠ [] →
  ∃ out, mergeRanges ranges = Returned out ∧ out ≠ []
         ∧ adjacent (λ a b, ¬ joinable a b) out.
Proof.
  destruct ranges as [|r0 [|r1 rest]]; intros Hne.
  - contradiction.
  - exists [r0]. repeat split. discriminate.
  - rewrite mergeRanges_cons2. eexists. split; [reflexivity|]. split.
    + destruct (groups_head r0 (r1 :: rest) (start r0) (end_ r0) (source r0))
        as (e' & tl & ->). discriminate.
    + apply groups_separated; reflexivity.
Qed.

(** C6. Merge idempotence: running [mergeRanges] on what [mergeRanges]
    produced gives the same outcome as the first run. For a non-empty
    list the first run returns a list and the second run returns that
    very list; on the empty list the first call already throws, and so
    does the composition. *)
Theorem mergeRanges_idempotent ranges :
  andThen (mergeRanges ranges) mergeRanges = mergeRanges ranges
  ∧ match ranges with
    | [] => mergeRanges ranges = Thrown TypeError
    | _ :: _ => ∃ out, mergeRanges ranges = Returned out
                       ∧ mergeRanges out = Returned out
    end.
Proof.
  destruct ranges as [|r rest]; [split; reflexivity|].
  destruct (mergeRanges_returns (r :: rest)) as (out & Hout & Hne & Hsep);
    [discriminate|].
  pose proof (mergeRanges_fixed out Hne Hsep) as Hfix.
  split.
  - rewrite Hout. exact Hfix.
  - exists out. split; [exact Hout | exact Hfix].
Qed.

(** *** Single-range and empty inputs *)

(** C2, as the code has it. A list of at most one range is returned
    unchanged when it holds exactly one range; the guard is
    [rangesCount === 1], so the empty list goes on to the destructuring
    of [ranges[0]] and the call throws. *)
Theorem mergeRanges_short ranges :
  (length ranges ≤ 1)%nat →
  mergeRanges ranges
  = match ranges with [] => Thrown TypeError | _ :: _ => Returned ranges end.
Proof.
  destruct ranges as [|r [|r' rest]]; cbn [length]; intros Hlen.
  - reflexivity.
  - reflexivity.
  - lia.
Qed.

(** *** Coverage *)

Lemma last_end_cons (d : Z) r l :
  default d (end_ <$> last (r :: l)) = default (end_ r) (end_ <$> last l).
Proof. rewrite last_cons. destruct (last l); reflexivity. Qed.

Lemma groups_last prev rest s e src :
  end_ <$> last (groups prev rest s e src)
  = Some (default e (end_ <$> last rest)).
Proof.
  revert prev s e src.
  induction rest as [|r rest IH]; intros prev s e src.
  - reflexivity.
  - cbn [groups]. rewrite last_end_cons. destruct (_ && _).
    + apply IH.
    + specialize (IH r (start r) (end_ r) (source r)).
      rewrite last_cons.
      destruct (last (groups _ _ _ _ _)); [exact IH | discriminate IH].
Qed.

Lemma groups_contiguous prev rest s e src :
  e = end_ prev → contiguous (prev :: rest) →
  contiguous (groups prev rest s e src).
Proof.
  unfold contiguous. revert prev s e src.
  induction rest as [|r rest IH]; intros prev s e src He Hc.
  - exact I.
  - cbn [adjacent] in Hc. destruct Hc as [Hstart Hc].
    cbn [groups]. destruct (_ && _).
    + apply IH; [reflexivity | exact Hc].
    + pose proof (IH r (start r) (end_ r) (source r) eq_refl Hc) as Hrec.
      destruct (groups_head r rest (start r) (end_ r) (source r))
        as (e' & tl & Heq).
      rewrite Heq in *. cbn [adjacent]. split; [|exact Hrec].
      cbn. lia.
Qed.

Lemma groups_wf prev rest s e src :
  e = end_ prev → s ≤ e → contiguous (prev :: rest) → Forall wf rest →
  Forall wf (groups prev rest s e src).
Proof.
  unfold contiguous. revert prev s e src.
  induction rest as [|r rest IH]; intros prev s e src He Hse Hc Hwf.
  - repeat constructor. exact Hse.
  - cbn [adjacent] in Hc. destruct Hc as [Hstart Hc].
    apply Forall_cons in Hwf. destruct Hwf as [Hr Hwf]. unfold wf in Hr.
    cbn [groups]. destruct (_ && _).
    + apply IH; [reflexivity | lia | exact Hc | exact Hwf].
    + constructor; [exact Hse|].
      apply IH; [reflexivity | exact Hr | exact Hc | exact Hwf].
Qed.

(** In a contiguous list of well-formed ranges every range ends before
    all later ones start. *)
Lemma contiguous_after r l :
  contiguous (r :: l) → Forall wf l →
  Forall (λ b, end_ r < start b) l.
Proof.
  unfold contiguous. revert r.
  induction l as [|b l IH]; intros r Hc Hwf; [constructor|].
  cbn [adjacent] in Hc. destruct Hc as [Hstart Hc].
  apply Forall_cons in Hwf. destruct Hwf as [Hb Hwf]. unfold wf in Hb.
  constructor; [lia|].
  eapply Forall_impl; [exact (IH b Hc Hwf)|].
  intros c Hbc. cbn in Hbc. lia.
Qed.

Lemma contiguous_tail r l : contiguous (r :: l) → contiguous l.
Proof.
  unfold contiguous. destruct l as [|b l]; [intros _; exact I|].
  cbn [adjacent]. intros [_ H]. exact H.
Qed.

Lemma contiguous_nonoverlapping l :
  contiguous l → Forall wf l → nonoverlapping l.
Proof.
  unfold nonoverlapping.
  induction l as [|r l IH]; intros Hc Hwf; [exact I|].
  apply Forall_cons in Hwf. destruct Hwf as [Hr Hwf].
  cbn [pairwise]. split.
  - apply contiguous_after; assumption.
  - apply IH; [eapply contiguous_tail; exact Hc | exact Hwf].
Qed.

Lemma contiguous_ordered l :
  contiguous l → Forall wf l → ordered l.
Proof.
  intros Hc Hwf. split; [exact Hwf|].
  induction l as [|r l IH]; [exact I|].
  pose proof Hwf as Hwf0.
  apply Forall_cons in Hwf. destruct Hwf as [Hr Hwf]. unfold wf in Hr.
  cbn [pairwise]. split.
  - eapply Forall_impl; [exact (contiguous_after r l Hc Hwf)|].
    intros c Hbc. cbn in Hbc. lia.
  - apply IH; [eapply contiguous_tail; exact Hc | exact Hwf].
Qed.

(** A contiguous list of well-formed ranges covers the interval from
    its first start to its last end, and nothing else. *)
Lemma contiguous_covered r l z :
  contiguous (r :: l) → Forall wf (r :: l) →
  covered (r :: l) z
  ↔ start r ≤ z ≤ default (end_ r) (end_ <$> last l).
Proof.
  unfold covered. revert r.
  induction l as [|b l IH]; intros r Hc Hwf.
  - rewrite Exists_cons, Exists_nil. cbn. tauto.
  - pose proof Hwf as Hwf0.
    apply Forall_cons in Hwf. destruct Hwf as [Hr Hwf]. unfold wf in Hr.
    pose proof (contiguous_tail _ _ Hc) as Hc'.
    specialize (IH b Hc' Hwf).
    rewrite Exists_cons, IH.
    unfold contiguous in Hc. cbn [adjacent] in Hc. destruct Hc as [Hstart _].
    rewrite last_end_cons.
    assert (end_ b ≤ default (end_ b) (end_ <$> last l)) as Hle.
    { clear -Hc' Hwf. revert b Hc' Hwf.
      induction l as [|c l IHl]; intros b Hc Hwf; [cbn; lia|].
      pose proof (contiguous_tail _ _ Hc) as Hc'.
      pose proof Hwf as Hwf0.
      apply Forall_cons in Hwf. destruct Hwf as [_ Hwf].
      apply Forall_cons in Hwf. destruct Hwf as [Hcwf Hwf].
      unfold wf in Hcwf.
      unfold contiguous in Hc. cbn [adjacent] in Hc. destruct Hc as [Hs _].
      rewrite last_end_cons.
      specialize (IHl c Hc'). 
      assert (Forall wf (c :: l)) as Hwfc by (constructor; assumption).
      specialize (IHl Hwfc). lia. }
    apply Forall_cons in Hwf. destruct Hwf as [Hb _]. unfold wf in Hb.
    lia.
Qed.

(** C1. On a non-empty, ordered, contiguous range list [mergeRanges]
    returns a list that is again ordered, pairwise non-overlapping and
    contiguous, that starts where the input starts and ends where the
    input ends, and that covers exactly the bytes the input covers. *)
Theorem mergeRanges_coverage ranges :
  ranges ≠ [] → ordered ranges → contiguous ranges →
  ∃ out,
    mergeRanges ranges = Returned out
    ∧ ordered out ∧ nonoverlapping out ∧ contiguous out
    ∧ start <$> head out = start <$> head ranges
    ∧ end_ <$> last out = end_ <$> last ranges
    ∧ ∀ z, covered out z ↔ covered ranges z.
Proof.
  intros Hne [Hwf Hord] Hc.
  destruct ranges as [|r0 [|r1 rest]]; [contradiction| |].
  - exists [r0]. split; [reflexivity|].
    split; [split; assumption|].
    split; [split; [constructor | exact I]|].
    split; [exact I|].
    split; [reflexivity|].
    split; [reflexivity|].
    intros z. reflexivity.
  - rewrite mergeRanges_cons2.
    set (out := groups r0 (r1 :: rest) (start r0) (end_ r0) (source r0)).
    pose proof Hwf as Hwf0.
    apply Forall_cons in Hwf. destruct Hwf as [Hr0 Hwf].
    assert (contiguous out) as Hcout
      by (apply groups_contiguous; [reflexivity | exact Hc]).
    assert (Forall wf out) as Hwfout
      by (apply groups_wf; [reflexivity | exact Hr0 | exact Hc | exact Hwf]).
    pose proof (groups_last r0 (r1 :: rest) (start r0) (end_ r0) (source r0))
      as Hlast.
    fold out in Hlast.
    destruct (groups_head r0 (r1 :: rest) (start r0) (end_ r0) (source r0))
      as (e' & tl & Hhead).
    fold out in Hhead.
    exists out. split; [reflexivity|].
    split; [apply contiguous_ordered; assumption|].
    split; [apply contiguous_nonoverlapping; assumption|].
    split; [exact Hcout|].
    split; [rewrite Hhead; reflexivity|].
    split.
    + rewrite Hlast, last_end_cons, (last_cons r0), (last_cons r1).
      destruct (last rest); reflexivity.
    + intros z. rewrite Hhead in *.
      rewrite (contiguous_covered _ _ z Hcout Hwfout).
      rewrite (contiguous_covered _ _ z Hc Hwf0).
      cbn [start end_].
      rewrite last_cons in Hlast.
      destruct (last tl); cbn in Hlast |- *;
        injection Hlast as Hl; rewrite Hl; reflexivity.
Qed.

End merger_facts.

(** ** Strings *)

Lemma sapp_cons (c : ascii) (a b : string) :
  String c a +:+ b = String c (a +:+ b).
Proof. reflexivity. Qed.

Lemma sapp_nil_r (s : string) : s +:+ "" = s.
Proof.
  induction s as [|c s IH]; [reflexivity|].
  rewrite sapp_cons, IH. reflexivity.
Qed.

Lemma sapp_assoc (a b c : string) : (a +:+ b) +:+ c = a +:+ (b +:+ c).
Proof.
  induction a as [|x a IH]; [reflexivity|].
  rewrite !sapp_cons, IH. reflexivity.
Qed.

Lemma slen_app (a b : string) :
  String.length (a +:+ b) = (String.length a + String.length b)%nat.
Proof.
  induction a as [|x a IH]; [reflexivity|].
  rewrite sapp_cons. cbn [String.length]. rewrite IH. reflexivity.
Qed.

Lemma sdrop_app (a b : string) : sdrop (String.length a) (a +:+ b) = b.
Proof. induction a as [|x a IH]; [destruct b; reflexivity|]. exact IH. Qed.

Lemma slen_sdrop (n : nat) (s : string) :
  String.length (sdrop n s) = (String.length s - n)%nat.
Proof.
  revert s. induction n as [|n IH]; intros [|c s]; cbn; try reflexivity.
  apply IH.
Qed.

Lemma sdrop_all (n : nat) (s : string) :
  (String.length s ≤ n)%nat → sdrop n s = "".
Proof.
  revert s. induction n as [|n IH]; intros [|c s]; cbn; intros H;
    try reflexivity; try lia.
  apply IH. lia.
Qed.

Lemma prefix_isPrefix (sub s : string) :
  String.prefix sub s = true ↔ isPrefix sub s.
Proof.
  unfold isPrefix. revert s.
  induction sub as [|a sub IH]; intros s.
  - destruct s; cbn; split; eauto.
  - destruct s as [|b s]; cbn [String.prefix].
    + split; [discriminate | intros [rest H]; discriminate H].
    + destruct (ascii_dec a b) as [->|Hne].
      * rewrite IH. split; intros [rest H]; exists rest.
        -- rewrite sapp_cons, <- H. reflexivity.
        -- rewrite sapp_cons in H. congruence.
      * split; [discriminate|].
        intros [rest H]. rewrite sapp_cons in H. congruence.
Qed.

Lemma prefix_sdrop (sub s : string) :
  String.prefix sub s = true → s = sub +:+ sdrop (String.length sub) s.
Proof.
  intros H. apply prefix_isPrefix in H. destruct H as [rest ->].
  rewrite sdrop_app. reflexivity.
Qed.

Lemma prefix_length (sub s : string) :
  String.prefix sub s = true → (String.length sub ≤ String.length s)%nat.
Proof.
  intros H. apply prefix_isPrefix in H. destruct H as [rest ->].
  rewrite slen_app. lia.
Qed.

Lemma isPrefix_refl (s : string) : isPrefix s s.
Proof. exists "". symmetry. apply sapp_nil_r. Qed.

Lemma isPrefix_empty (s : string) : isPrefix "" s.
Proof. exists s. reflexivity. Qed.

Lemma isPrefix_app (a b rest : string) : isPrefix a b → isPrefix a (b +:+ rest).
Proof. intros [r ->]. exists (r +:+ rest). apply sapp_assoc. Qed.

(** ** Occurrence counter *)

Lemma search_empty (s : string) : search "" s = Some 0%nat.
Proof. destruct s; reflexivity. Qed.

Lemma search_bound (sub t : string) (k : nat) :
  sub ≠ "" → search sub t = Some k →
  (k + String.length sub ≤ String.length t)%nat.
Proof.
  intros Hne. revert k. induction t as [|c t IH]; intros k.
  - destruct sub; [contradiction | discriminate].
  - cbn [search]. destruct (String.prefix sub (String c t)) eqn:Hp.
    + intros [= <-]. apply prefix_length in Hp. lia.
    + destruct (search sub t) as [j|]; [|discriminate].
      intros [= <-]. specialize (IH j eq_refl). cbn. lia.
Qed.

Lemma indexOf_empty (s : string) (position : Z) :
  indexOf s "" position
  = Z.min (Z.max position 0) (Z.of_nat (String.length s)).
Proof. unfold indexOf. rewrite search_empty. lia. Qed.

(** A hit of a non-empty needle lies at or after the start position and
    inside the haystack. *)
Lemma indexOf_hit (s sub : string) (position : Z) :
  sub ≠ "" → indexOf s sub position ≠ -1 →
  0 ≤ indexOf s sub position
  ∧ position ≤ indexOf s sub position
  ∧ indexOf s sub position + Z.of_nat (String.length sub)
    ≤ Z.of_nat (String.length s).
Proof.
  intros Hne. unfold indexOf.
  set (len := Z.of_nat (String.length s)).
  set (from := Z.min (Z.max position 0) len).
  destruct (search sub (sdrop (Z.to_nat from) s)) as [k|] eqn:Hs;
    [|intros H; contradiction].
  intros _. apply search_bound in Hs; [|exact Hne].
  assert (0 < String.length sub)%nat
    by (destruct sub; [contradiction | cbn; lia]).
  rewrite slen_sdrop in Hs. subst from len. lia.
Qed.

Lemma countLoop_more_fuel (fuel fuel' : nat) (sub s : string)
    (count : nat) (position : Z) (n : nat) :
  countLoop fuel sub s count position = Some n → (fuel ≤ fuel')%nat →
  countLoop fuel' sub s count position = Some n.
Proof.
  revert fuel' count position.
  induction fuel as [|fuel IH]; intros fuel' count position; [discriminate|].
  intros Hrun Hle. destruct fuel' as [|fuel']; [lia|].
  cbn [countLoop] in *. destruct (bool_decide _); [|exact Hrun].
  apply IH; [exact Hrun | lia].
Qed.

(** With a non-empty needle every hit moves the position forward, so the
    loop ends within [length s - position + 2] rounds. *)
Lemma countLoop_terminates (fuel : nat) (sub s : string)
    (count : nat) (position : Z) :
  sub ≠ "" →
  (position = -1 ∧ (1 ≤ fuel)%nat)
  ∨ (0 ≤ position
     ∧ (Z.to_nat (Z.of_nat (String.length s) - position) + 2 ≤ fuel)%nat) →
  ∃ n, countLoop fuel sub s count position = Some n.
Proof.
  intros Hne. revert count position.
  induction fuel as [|fuel IH]; intros count position Hpos; [lia|].
  cbn [countLoop]. destruct (bool_decide _) eqn:Hd; [|eauto].
  apply bool_decide_eq_true in Hd.
  assert (0 < Z.of_nat (String.length sub)) as Hlen
    by (destruct sub; [contradiction | cbn; lia]).
  set (next := indexOf s sub (position + Z.of_nat (String.length sub))).
  destruct (decide (next = -1)) as [Hnext|Hnext].
  - rewrite Hnext. apply IH. left. lia.
  - pose proof (indexOf_hit s sub _ Hne Hnext) as (H0 & Hge & Hin).
    fold next in H0, Hge, Hin.
    apply IH. right. lia.
Qed.

Lemma countLoop_empty_needle (fuel : nat) (s : string) (count : nat) :
  countLoop fuel "" s count 0 = None.
Proof.
  revert count. induction fuel as [|fuel IH]; intros count; [reflexivity|].
  cbn [countLoop]. rewrite bool_decide_eq_true_2 by lia.
  rewrite indexOf_empty.
  replace (Z.min _ _) with 0 by (cbn; lia). apply IH.
Qed.

Lemma getOccurrencesCount_empty_needle (fuel : nat) (s : string) :
  getOccurrencesCount fuel "" s = None.
Proof.
  unfold getOccurrencesCount. rewrite indexOf_empty.
  replace (Z.min _ _) with 0 by lia. apply countLoop_empty_needle.
Qed.

Lemma getOccurrencesCount_nonempty_needle (sub s : string) :
  sub ≠ "" →
  ∃ n, ∀ fuel, (String.length s + 3 ≤ fuel)%nat →
       getOccurrencesCount fuel sub s = Some n.
Proof.
  intros Hne. unfold getOccurrencesCount.
  set (first := indexOf s sub 0).
  assert (0 ≤ first ∨ first = -1) as Hfirst.
  { destruct (decide (first = -1)) as [|Hn]; [right; assumption|].
    left. apply (indexOf_hit s sub 0 Hne Hn). }
  destruct (countLoop_terminates (String.length s + 3) sub s 0 first Hne)
    as [n Hn]; [lia|].
  exists n. intros fuel Hfuel.
  eapply countLoop_more_fuel; [exact Hn | exact Hfuel].
Qed.

(** C3, as the code has it. The empty needle is not guarded: the first
    search finds it at position 0, every further search starts at
    [0 + 0] and finds it there again, so the loop never exits and no
    amount of fuel yields a result. With a non-empty needle the loop does
    terminate, within [length s + 3] rounds. *)
Theorem getOccurrencesCount_termination :
  (∀ s fuel, getOccurrencesCount fuel "" s = None)
  ∧ (∀ sub s, sub ≠ "" →
       ∃ n, ∀ fuel, (String.length s + 3 ≤ fuel)%nat →
            getOccurrencesCount fuel sub s = Some n)
  ∧ getOccurrencesCount 9 "ab" "ababab" = Some 3%nat.
Proof.
  split; [|split].
  - intros s fuel. apply getOccurrencesCount_empty_needle.
  - intros sub s Hne. apply getOccurrencesCount_nonempty_needle. exact Hne.
  - reflexivity.
Qed.

(** The claim's own scenario: no run of the loop on needle [""] and
    haystack ["abc"] returns [0] (or anything else). *)
Lemma getOccurrencesCount_empty_abc :
  ¬ ∃ fuel, getOccurrencesCount fuel "" "abc" = Some 0%nat.
Proof.
  intros [fuel H]. rewrite getOccurrencesCount_empty_needle in H.
  discriminate H.
Qed.

(** ** Splitting and joining *)

Lemma splitOn_nonempty (a : ascii) (sep' s cur : string) :
  splitOn a sep' s cur ≠ [].
Proof. funelim (splitOn a sep' s cur); [discriminate | discriminate | assumption]. Qed.

Lemma concat_cons (sep x : string) (l : list string) :
  l ≠ [] → String.concat sep (x :: l) = x +:+ sep +:+ String.concat sep l.
Proof. destruct l; [contradiction | reflexivity]. Qed.

(** Joining the pieces with the separator gives the string back. *)
Lemma splitOn_concat (a : ascii) (sep' s cur : string) :
  String.concat (String a sep') (splitOn a sep' s cur) = cur +:+ s.
Proof.
  funelim (splitOn a sep' s cur).
  - cbn. symmetry. apply sapp_nil_r.
  - rewrite concat_cons by apply splitOn_nonempty.
    rewrite H. apply prefix_sdrop in Heq. cbn [String.length sdrop] in Heq.
    rewrite Heq. reflexivity.
  - rewrite H, sapp_assoc. reflexivity.
Qed.

Lemma split_nonempty (sep s : string) : sep ≠ "" → split sep s ≠ [].
Proof.
  destruct sep as [|a sep']; [contradiction|]. intros _.
  apply splitOn_nonempty.
Qed.

Lemma split_concat (sep s : string) :
  sep ≠ "" → String.concat sep (split sep s) = s.
Proof.
  destruct sep as [|a sep']; [contradiction|]. intros _.
  unfold split. rewrite splitOn_concat. reflexivity.
Qed.

(** ** Lines and their terminators *)

Lemma rejoin_app (es rest : list SplitLine) :
  rest ≠ [] → rejoin (es ++ rest) = joinAll es +:+ rejoin rest.
Proof.
  intros Hne. induction es as [|e es IH]; [reflexivity|].
  cbn [app rejoin joinAll]. destruct (es ++ rest) eqn:E.
  - apply app_eq_nil in E. destruct E as [_ ->]. contradiction.
  - rewrite IH, !sapp_assoc. reflexivity.
Qed.

(** Lines tagged [LF] everywhere but at the last index rejoin to the
    [LF]-separated text, whatever the last tag is. *)
Lemma rejoin_imap (g : nat → string) (lines : list string) :
  (∀ j, (S j < length lines)%nat → g j = LF) →
  rejoin (imap (λ j l, mkSplitLine l (g j)) lines) = String.concat LF lines.
Proof.
  revert g. induction lines as [|x lines IH]; intros g Hg; [reflexivity|].
  destruct lines as [|y lines]; [reflexivity|].
  specialize (IH (g ∘ S)).
  rewrite concat_cons by discriminate.
  rewrite <- IH by (intros j Hj; apply Hg; cbn in *; lia).
  rewrite <- (Hg 0%nat) by (cbn; lia).
  rewrite imap_cons, (imap_cons _ y). reflexivity.
Qed.

Lemma joinAll_imap (g : nat → string) (lines : list string) :
  lines ≠ [] →
  (∀ j, (S j < length lines)%nat → g j = LF) →
  joinAll (imap (λ j l, mkSplitLine l (g j)) lines)
  = String.concat LF lines +:+ g (length lines - 1)%nat.
Proof.
  revert g. induction lines as [|x lines IH]; intros g Hne Hg; [contradiction|].
  destruct lines as [|y lines].
  - cbn. rewrite sapp_nil_r. reflexivity.
  - specialize (IH (g ∘ S)).
    rewrite concat_cons by discriminate.
    rewrite imap_cons. cbn [joinAll line eol].
    change (imap ((λ j l, mkSplitLine l (g j)) ∘ S) (y :: lines))
      with (imap (λ j l, mkSplitLine l ((g ∘ S) j)) (y :: lines)).
    rewrite IH; [|discriminate|intros j Hj; apply Hg; cbn in *; lia].
    rewrite (Hg 0%nat) by (cbn; lia).
    rewrite !sapp_assoc. cbn [length]. unfold compose.
    replace (S (S (length lines) - 1)) with (S (S (length lines)) - 1)%nat by lia.
    reflexivity.
Qed.

Lemma tagLine_inner (i n : nat) (orig : list string) (j : nat) (l : string) :
  (S j < length orig)%nat → eol (tagLine i n orig j l) = LF.
Proof.
  intros Hj. unfold tagLine. cbn [eol].
  rewrite (bool_decide_eq_true_2 (Z.of_nat j < _)) by lia. reflexivity.
Qed.

Lemma tagLine_final (i n : nat) (orig : list string) (l : string) :
  (S i < n)%nat → orig ≠ [] →
  eol (tagLine i n orig (length orig - 1) l) = CR_LF.
Proof.
  intros Hi Hne. unfold tagLine. cbn [eol].
  assert (0 < length orig)%nat by (destruct orig; [contradiction | cbn; lia]).
  rewrite (bool_decide_eq_false_2 (Z.of_nat (length orig - 1) < _)) by lia.
  rewrite (bool_decide_eq_false_2 (Z.of_nat i = _)) by lia. reflexivity.
Qed.

Lemma reduceFrom_addChunk (n i : nat) (chunks : list string)
    (arr : list SplitLine) :
  reduceFrom (addChunk n) i chunks arr
  = arr ++ reduceFrom (addChunk n) i chunks [].
Proof.
  revert i arr. induction chunks as [|e chunks IH]; intros i arr.
  - cbn. rewrite app_nil_r. reflexivity.
  - cbn [reduceFrom]. rewrite IH, (IH _ (addChunk n [] e i)).
    unfold addChunk. cbn [app]. rewrite app_assoc. reflexivity.
Qed.

Lemma addChunk_nonempty (n i : nat) (e : string) : addChunk n [] e i ≠ [].
Proof.
  unfold addChunk. cbn [app].
  assert (split LF e ≠ []) as Hne by (apply split_nonempty; discriminate).
  destruct (split LF e); [contradiction|].
  rewrite imap_cons. discriminate.
Qed.

Lemma reduceFrom_nonempty (n i : nat) (chunks : list string) :
  chunks ≠ [] → reduceFrom (addChunk n) i chunks [] ≠ [].
Proof.
  destruct chunks as [|e chunks]; [contradiction|]. intros _.
  cbn [reduceFrom]. rewrite reduceFrom_addChunk.
  intros H. apply app_eq_nil in H. destruct H as [H _].
  exact (addChunk_nonempty n i e H).
Qed.

(** The entries of the chunks from index [i] on rejoin to these chunks
    separated by [CR_LF]. *)
Lemma rejoin_chunks (n i : nat) (chunks : list string) :
  chunks ≠ [] → (i + length chunks = n)%nat →
  rejoin (reduceFrom (addChunk n) i chunks []) = String.concat CR_LF chunks.
Proof.
  revert i. induction chunks as [|e chunks IH]; intros i Hne Hlen;
    [contradiction|].
  cbn [reduceFrom]. rewrite reduceFrom_addChunk.
  assert (split LF e ≠ []) as Hsplit by (apply split_nonempty; discriminate).
  destruct chunks as [|e' chunks].
  - cbn [reduceFrom]. rewrite app_nil_r. unfold addChunk. cbn [app].
    change (tagLine i n (split LF e))
      with (λ j l, mkSplitLine l (eol (tagLine i n (split LF e) j l))).
    rewrite (rejoin_imap (λ j, eol (tagLine i n (split LF e) j ""))).
    + change (String.concat CR_LF [e]) with e.
      apply split_concat. discriminate.
    + intros j Hj. apply tagLine_inner. exact Hj.
  - rewrite rejoin_app by (apply reduceFrom_nonempty; discriminate).
    rewrite (IH (S i)); [|discriminate|cbn [length] in *; lia].
    rewrite (concat_cons CR_LF e) by discriminate.
    unfold addChunk. cbn [app].
    change (tagLine i n (split LF e))
      with (λ j l, mkSplitLine l (eol (tagLine i n (split LF e) j l))).
    rewrite (joinAll_imap (λ j, eol (tagLine i n (split LF e) j ""))).
    + rewrite tagLine_final; [|cbn [length] in *; lia|exact Hsplit].
      rewrite split_concat by discriminate.
      rewrite sapp_assoc. reflexivity.
    + exact Hsplit.
    + intros j Hj. apply tagLine_inner. exact Hj.
Qed.

(** C5. EOL round trip: joining the entries of [splitLinesByEOL s] in
    order, each line followed by its terminator and the terminator of the
    final entry left out, gives [s] back, for every string [s]. *)
Theorem splitLinesByEOL_roundtrip (s : string) :
  rejoin (splitLinesByEOL s) = s.
Proof.
  unfold splitLinesByEOL.
  rewrite rejoin_chunks.
  - apply split_concat. discriminate.
  - apply split_nonempty. discriminate.
  - reflexivity.
Qed.

(** ** The code-unit order and the sort *)

Lemma ascii_compare_refl (a : ascii) : Ascii.compare a a = Eq.
Proof. unfold Ascii.compare. apply N.compare_refl. Qed.

Lemma ascii_compare_lt_trans (a b c : ascii) :
  Ascii.compare a b = Lt → Ascii.compare b c = Lt → Ascii.compare a c = Lt.
Proof.
  unfold Ascii.compare. rewrite !N.compare_lt_iff. apply N.lt_trans.
Qed.

Lemma leb_cons (a b : ascii) (x y : string) :
  String.leb (String a x) (String b y) = true
  ↔ Ascii.compare a b = Lt ∨ (a = b ∧ String.leb x y = true).
Proof.
  unfold String.leb. cbn [String.compare].
  destruct (Ascii.compare a b) eqn:E.
  - apply Ascii.compare_eq_iff in E. subst b.
    split; [intros H; right; split; [reflexivity | exact H]|].
    intros [H|[_ H]]; [discriminate H | exact H].
  - split; [intros _; left; reflexivity | reflexivity].
  - split; [discriminate|].
    intros [H|[-> _]]; [discriminate H|].
    rewrite ascii_compare_refl in E. discriminate E.
Qed.

Lemma leb_refl (x : string) : String.leb x x = true.
Proof.
  induction x as [|a x IH]; [reflexivity|].
  apply leb_cons. right. split; [reflexivity | exact IH].
Qed.

Lemma leb_trans (x y z : string) :
  String.leb x y = true → String.leb y z = true → String.leb x z = true.
Proof.
  revert y z. induction x as [|a x IH]; intros y z Hxy Hyz.
  - destruct z; reflexivity.
  - destruct y as [|b y]; [discriminate Hxy|].
    destruct z as [|c z]; [discriminate Hyz|].
    apply leb_cons in Hxy. apply leb_cons in Hyz. apply leb_cons.
    destruct Hxy as [Hab|[-> Hxy]], Hyz as [Hbc|[-> Hyz]].
    + left. eapply ascii_compare_lt_trans; eassumption.
    + left. exact Hab.
    + left. exact Hbc.
    + right. split; [reflexivity|]. eapply IH; eassumption.
Qed.

(** A prefix shared by two strings is shared by every string that lies
    between them in the code-unit order. *)
Lemma isPrefix_between (p a m c : string) :
  isPrefix p a → isPrefix p c →
  String.leb a m = true → String.leb m c = true → isPrefix p m.
Proof.
  revert a m c. induction p as [|x p IH]; intros a m c Ha Hc Ham Hmc.
  - apply isPrefix_empty.
  - destruct Ha as [ra ->], Hc as [rc ->]. rewrite sapp_cons in Ham, Hmc.
    destruct m as [|y m]; [discriminate Ham|].
    apply leb_cons in Ham. apply leb_cons in Hmc.
    assert (x = y) as <-.
    { destruct Ham as [Hlt|[-> _]]; [|reflexivity].
      destruct Hmc as [Hgt|[-> _]]; [|reflexivity].
      rewrite Ascii.compare_antisym, Hlt in Hgt. discriminate Hgt. }
    destruct Ham as [Hlt|[_ Ham]];
      [rewrite ascii_compare_refl in Hlt; discriminate Hlt|].
    destruct Hmc as [Hlt|[_ Hmc]];
      [rewrite ascii_compare_refl in Hlt; discriminate Hlt|].
    destruct (IH (p +:+ ra) m (p +:+ rc)) as [rm ->];
      [eexists; reflexivity | eexists; reflexivity | exact Ham | exact Hmc|].
    exists rm. reflexivity.
Qed.

Lemma sortInsert_perm (x : string) (l : list string) :
  sortInsert x l ≡ₚ x :: l.
Proof.
  induction l as [|y l IH]; [reflexivity|].
  cbn [sortInsert]. destruct (String.leb x y); [reflexivity|].
  rewrite IH. apply Permutation_swap.
Qed.

Lemma arraySort_perm (l : list string) : arraySort l ≡ₚ l.
Proof.
  induction l as [|x l IH]; [reflexivity|].
  cbn [arraySort]. rewrite sortInsert_perm, IH. reflexivity.
Qed.

Lemma sortInsert_sorted (x : string) (l : list string) :
  pairwise lebP l → pairwise lebP (sortInsert x l).
Proof.
  induction l as [|y l IH]; intros Hs.
  - cbn. split; [constructor | exact I].
  - cbn [sortInsert]. destruct (String.leb x y) eqn:Hxy.
    + cbn [pairwise] in *. destruct Hs as [Hy Hs].
      split; [|split; assumption].
      constructor; [exact Hxy|].
      eapply Forall_impl; [exact Hy|].
      intros z Hyz. eapply leb_trans; eassumption.
    + cbn [pairwise] in *. destruct Hs as [Hy Hs].
      split; [|apply IH; exact Hs].
      rewrite sortInsert_perm. constructor; [|exact Hy].
      destruct (String.leb_total x y) as [H|H]; [congruence | exact H].
Qed.

Lemma arraySort_sorted (l : list string) : pairwise lebP (arraySort l).
Proof.
  induction l as [|x l IH]; [exact I|].
  cbn [arraySort]. apply sortInsert_sorted. exact IH.
Qed.

Lemma pairwise_first (l : list string) (first x : string) :
  pairwise lebP l → l !! 0%nat = Some first → x ∈ l → lebP first x.
Proof.
  destruct l as [|y l]; [discriminate|].
  cbn. intros [Hy _] [= ->] Hx.
  apply elem_of_cons in Hx. destruct Hx as [->|Hx].
  - apply leb_refl.
  - rewrite Forall_forall in Hy. apply Hy. exact Hx.
Qed.

Lemma pairwise_final (l : list string) (final x : string) :
  pairwise lebP l → l !! (length l - 1)%nat = Some final → x ∈ l →
  lebP x final.
Proof.
  induction l as [|y l IH]; [discriminate|].
  cbn [pairwise length]. intros [Hy Hs] Hlast Hx.
  destruct l as [|z l].
  - cbn in Hlast. injection Hlast as <-.
    apply list_elem_of_singleton in Hx. subst x. apply leb_refl.
  - replace (S (length (z :: l)) - 1)%nat with (S (length (z :: l) - 1))
      in Hlast by (cbn; lia).
    cbn [lookup list_lookup] in Hlast.
    apply elem_of_cons in Hx. destruct Hx as [->|Hx].
    + rewrite Forall_forall in Hy. apply Hy.
      eapply list_elem_of_lookup_2. exact Hlast.
    + apply IH; assumption.
Qed.

(** ** Common-prefix resolver *)

Lemma join_cons (x : string) (l : list string) : join (x :: l) = x +:+ join l.
Proof.
  unfold join. destruct l; [|reflexivity].
  change (x = x +:+ ""). symmetry. apply sapp_nil_r.
Qed.

Lemma join_app (l1 l2 : list string) : join (l1 ++ l2) = join l1 +:+ join l2.
Proof.
  induction l1 as [|x l1 IH]; [reflexivity|].
  cbn [app]. rewrite !join_cons, IH, sapp_assoc. reflexivity.
Qed.

(** The tokens of a path, concatenated, are the path. *)
Lemma splitSeparator_join (s cur : string) :
  join (splitSeparator s cur) = cur +:+ s.
Proof.
  revert cur. induction s as [|c s IH]; intros cur.
  - change (cur = cur +:+ ""). symmetry. apply sapp_nil_r.
  - cbn [splitSeparator]. destruct (decide _).
    + rewrite !join_cons, IH. reflexivity.
    + rewrite IH, sapp_assoc. reflexivity.
Qed.

Lemma join_take_prefix (i : nat) (l : list string) :
  isPrefix (join (take i l)) (join l).
Proof.
  exists (join (drop i l)). rewrite <- join_app, take_drop. reflexivity.
Qed.

(** The loop counts the leading tokens that the two arrays share. *)
Lemma commonLoop_count (pre t1 t2 : list string) :
  commonLoop (length t1) (pre ++ t1) (pre ++ t2) (length pre)
  = (length pre + length (commonTokens t1 t2))%nat.
Proof.
  revert pre t2. induction t1 as [|x t1 IH]; intros pre t2.
  - cbn. lia.
  - cbn [length commonLoop].
    rewrite !list_lookup_middle by reflexivity || idtac.
    rewrite (lookup_app_r pre t2) by lia.
    replace (length pre - length pre)%nat with 0%nat by lia.
    destruct t2 as [|y t2].
    + rewrite bool_decide_eq_false_2 by discriminate. cbn. lia.
    + cbn [lookup list_lookup commonTokens].
      destruct (decide (x = y)) as [->|Hne].
      * rewrite bool_decide_eq_true_2 by reflexivity.
        specialize (IH (pre ++ [y]) t2).
        rewrite <- !app_assoc, length_app in IH. cbn [app length] in IH.
        replace (S (length pre)) with (length pre + 1)%nat by lia.
        rewrite IH. cbn [length]. lia.
      * rewrite bool_decide_eq_false_2 by congruence. cbn. lia.
Qed.

Lemma take_commonTokens (t1 t2 : list string) :
  take (length (commonTokens t1 t2)) t1 = commonTokens t1 t2.
Proof.
  revert t2. induction t1 as [|x t1 IH]; intros [|y t2]; try reflexivity.
  cbn [commonTokens]. destruct (decide (x = y)); [|reflexivity].
  cbn [length take]. rewrite IH. reflexivity.
Qed.

Lemma commonTokens_prefix_r (t1 t2 : list string) :
  take (length (commonTokens t1 t2)) t2 = commonTokens t1 t2.
Proof.
  revert t2. induction t1 as [|x t1 IH]; intros [|y t2]; try reflexivity.
  cbn [commonTokens]. destruct (decide (x = y)) as [->|]; [|reflexivity].
  cbn [length take]. rewrite IH. reflexivity.
Qed.

Lemma commonTokens_comm (t1 t2 : list string) :
  commonTokens t1 t2 = commonTokens t2 t1.
Proof.
  revert t2. induction t1 as [|x t1 IH]; intros [|y t2]; try reflexivity.
  cbn [commonTokens].
  destruct (decide (x = y)) as [->|Hne].
  - rewrite decide_True by reflexivity. rewrite IH. reflexivity.
  - rewrite decide_False by congruence. reflexivity.
Qed.

(** After the sort: the answer is made of the leading tokens that the
    first and the last path share. *)
Lemma prefixOfSorted_tokens (A : list string) (first final : string) :
  A !! 0%nat = Some first → A !! (length A - 1)%nat = Some final →
  prefixOfSorted A
  = Returned (join (commonTokens (splitSeparator first "")
                                 (splitSeparator final ""))).
Proof.
  intros H0 Hlast. unfold prefixOfSorted. rewrite H0, Hlast.
  pose proof (commonLoop_count [] (splitSeparator first "")
                (splitSeparator final "")) as Hloop.
  cbn [app length] in Hloop. rewrite Hloop. cbn [Nat.add].
  rewrite take_commonTokens. reflexivity.
Qed.

Lemma commonTokens_isPrefix (p q : string) :
  let r := join (commonTokens (splitSeparator p "") (splitSeparator q "")) in
  isPrefix r p ∧ isPrefix r q.
Proof.
  cbn zeta. split.
  - rewrite <- take_commonTokens.
    rewrite <- (splitSeparator_join p "") at 3. apply join_take_prefix.
  - rewrite <- commonTokens_prefix_r.
    rewrite <- (splitSeparator_join q "") at 3. apply join_take_prefix.
Qed.

Lemma sorted_ends (paths : list string) :
  (2 ≤ length paths)%nat →
  ∃ first final,
    arraySort paths !! 0%nat = Some first
    ∧ arraySort paths !! (length (arraySort paths) - 1)%nat = Some final
    ∧ first ∈ paths ∧ final ∈ paths
    ∧ ∀ x, x ∈ paths → lebP first x ∧ lebP x final.
Proof.
  intros Hlen.
  pose proof (arraySort_perm paths) as Hperm.
  pose proof (arraySort_sorted paths) as Hsorted.
  assert (length (arraySort paths) = length paths) as HlenA
    by (rewrite Hperm; reflexivity).
  destruct (lookup_lt_is_Some_2 (arraySort paths) 0%nat) as [first H0]; [lia|].
  destruct (lookup_lt_is_Some_2 (arraySort paths)
              (length (arraySort paths) - 1)%nat) as [final Hl]; [lia|].
  exists first, final. split; [exact H0|]. split; [exact Hl|].
  split; [rewrite <- Hperm; eapply list_elem_of_lookup_2; exact H0|].
  split; [rewrite <- Hperm; eapply list_elem_of_lookup_2; exact Hl|].
  intros x Hx. rewrite <- Hperm in Hx. split.
  - eapply pairwise_first; eassumption.
  - eapply pairwise_final; eassumption.
Qed.

(** [getCommonPathPrefix] never throws, and what it returns is a prefix
    of every path it was given. *)
Lemma getCommonPathPrefix_common (paths : list string) :
  ∃ r, getCommonPathPrefix paths = Returned r
       ∧ ∀ x, x ∈ paths → isPrefix r x.
Proof.
  unfold getCommonPathPrefix. destruct (decide _) as [Hshort|Hlong].
  - exists "". split; [reflexivity|]. intros x _. apply isPrefix_empty.
  - destruct (sorted_ends paths) as (first & final & H0 & Hl & _ & _ & Hbetween);
      [lia|].
    rewrite (prefixOfSorted_tokens _ first final H0 Hl).
    eexists. split; [reflexivity|]. intros x Hx.
    pose proof (commonTokens_isPrefix first final) as Hends.
    cbn zeta in Hends. destruct Hends as [Hf Hl'].
    destruct (Hbetween x Hx) as [Hfx Hxl].
    exact (isPrefix_between _ first x final Hf Hl' Hfx Hxl).
Qed.

Lemma isPrefix_nil (p : string) : isPrefix p "" → p = "".
Proof. intros [rest H]. destruct p; [reflexivity | discriminate H]. Qed.

(** C4, as the code has it. The two paths ["/x/y"] and ["/z/y"] do share
    a prefix, the leading separator, and that is what is returned; when
    the supplied paths share no non-empty prefix, the result is the empty
    string. *)
Theorem getCommonPathPrefix_no_common_prefix :
  getCommonPathPrefix ["/x/y"; "/z/y"] = Returned "/"
  ∧ ∀ paths,
      (∀ p, (∀ x, x ∈ paths → isPrefix p x) → p = "") →
      getCommonPathPrefix paths = Returned "".
Proof.
  split; [reflexivity|].
  intros paths Hnone.
  destruct (getCommonPathPrefix_common paths) as (r & Hr & Hcommon).
  rewrite Hr. f_equal. apply Hnone. exact Hcommon.
Qed.

(** The scenario of the claim: the result is not the empty string. *)
Lemma getCommonPathPrefix_xy_zy :
  getCommonPathPrefix ["/x/y"; "/z/y"] ≠ Returned "".
Proof. discriminate. Qed.

Lemma getCommonPathPrefix_short (paths : list string) :
  (length paths < 2)%nat → getCommonPathPrefix paths = Returned "".
Proof.
  intros H. unfold getCommonPathPrefix. rewrite decide_True by exact H.
  reflexivity.
Qed.

(** With two or more paths the answer is the token-aligned common prefix
    of the least and the greatest path in the code-unit order. *)
Lemma getCommonPathPrefix_ends (paths : list string) :
  (2 ≤ length paths)%nat →
  ∃ first final,
    first ∈ paths ∧ final ∈ paths
    ∧ (∀ x, x ∈ paths → lebP first x ∧ lebP x final)
    ∧ getCommonPathPrefix paths
      = Returned (alignedCommonPrefix [first; final]).
Proof.
  intros Hlen.
  destruct (sorted_ends paths Hlen)
    as (first & final & H0 & Hl & Hf & Hfin & Hbetween).
  exists first, final. repeat (split; [assumption|]).
  unfold getCommonPathPrefix. rewrite decide_False by lia.
  rewrite (prefixOfSorted_tokens _ first final H0 Hl). reflexivity.
Qed.

(** For exactly two paths this is the longest run of leading tokens that
    both share. *)
Lemma getCommonPathPrefix_two (p q : string) :
  getCommonPathPrefix [p; q] = Returned (alignedCommonPrefix [p; q]).
Proof.
  unfold getCommonPathPrefix. rewrite decide_False by (cbn; lia).
  cbn [arraySort sortInsert]. destruct (String.leb p q).
  - rewrite (prefixOfSorted_tokens _ p q) by reflexivity. reflexivity.
  - rewrite (prefixOfSorted_tokens _ q p) by reflexivity.
    cbn [alignedCommonPrefix foldl]. rewrite commonTokens_comm. reflexivity.
Qed.

Lemma getCommonPathPrefix_scenarios :
  getCommonPathPrefix ["/a/b/c"; "/a/b/d"] = Returned "/a/b/"
  ∧ getCommonPathPrefix ["/a/bc"; "/a/bd"] = Returned "/a/"
  ∧ getCommonPathPrefix ["/a/b/c"] = Returned ""
  ∧ getCommonPathPrefix [] = Returned "".
Proof. repeat split. Qed.

(** C7, where the code departs from it. Three paths, sorted
    ["lib" < "lib.js" < "lib/index.js"] because ["."] sorts before ["/"]:
    only the first and the last are compared, they share the token
    ["lib"], and that is returned although it cuts the segment ["lib.js"]
    of the middle path in two. The leading tokens shared by all three
    paths are none. *)
Theorem getCommonPathPrefix_cuts_segment :
  getCommonPathPrefix ["lib"; "lib.js"; "lib/index.js"] = Returned "lib"
  ∧ alignedCommonPrefix ["lib"; "lib.js"; "lib/index.js"] = ""
  ∧ splitSeparator "lib.js" "" = ["lib.js"].
Proof. repeat split. Qed.

(** *** No mutation of the argument *)

Lemma prefixOfSorted_sorted (ps : list string) :
  ¬ (length ps < 2)%nat →
  prefixOfSorted (arraySort ps) = getCommonPathPrefix ps.
Proof.
  intros H. unfold getCommonPathPrefix. rewrite decide_False by exact H.
  reflexivity.
Qed.

(** C10. [getCommonPathPrefix] leaves its argument alone: after the call
    the array behind [paths] holds the same elements in the same order
    (and so does every other array that existed before); the sort works
    on the copy made by [concat]. The call returns what the function
    computes on the array's elements. *)
Theorem getCommonPathPrefixRef_frame
    (h : gmap positive (list string)) (paths : Store.ref) (ps : list string) :
  h !! paths = Some ps →
  ∃ r h',
    getCommonPathPrefixRef paths h = Returned (r, h')
    ∧ getCommonPathPrefix ps = Returned r
    ∧ h' !! paths = Some ps
    ∧ ∀ l, l ∈ dom h → h' !! l = h !! l.
Proof.
  intros Hps.
  destruct (getCommonPathPrefix_common ps) as (r & Hr & _).
  unfold getCommonPathPrefixRef, Store.bind, Store.read. rewrite Hps.
  destruct (decide (length ps < 2)%nat) as [Hshort|Hlong].
  - exists "", h. rewrite getCommonPathPrefix_short by exact Hshort.
    split; [reflexivity|]. split; [reflexivity|].
    split; [exact Hps | reflexivity].
  - unfold Store.concat. rewrite Hps.
    set (copy := fresh (dom h)).
    assert (copy ∉ dom h) as Hfresh by apply is_fresh.
    unfold Store.sort. rewrite lookup_insert_eq.
    rewrite lookup_insert_eq. unfold Store.lift.
    rewrite (prefixOfSorted_sorted ps Hlong), Hr.
    eexists _, _. split; [reflexivity|]. split; [reflexivity|].
    assert (∀ l, l ∈ dom h → l ≠ copy) as Hne by (intros l Hl ->; contradiction).
    split.
    + rewrite !lookup_insert_ne; [exact Hps| |];
        apply not_eq_sym, Hne, elem_of_dom; eauto.
    + intros l Hl. rewrite !lookup_insert_ne; [reflexivity| |];
        apply not_eq_sym, Hne, Hl.
Qed.

(** Sorting [paths] itself would show: the model does record mutation. *)
Lemma sortInPlaceVariant_mutates :
  ∃ r h', sortInPlaceVariant 1%positive {[ 1%positive := ["b/x"; "a/x"] ]}
          = Returned (r, h')
          ∧ h' !! 1%positive = Some ["a/x"; "b/x"].
Proof. eexists _, _. split; [vm_compute; reflexivity|]. reflexivity. Qed.

(** ** Numeric formatter *)

Lemma log2_SIZE_BASE : Z.log2 SIZE_BASE = 10.
Proof. reflexivity. Qed.

Lemma SIZE_BASE_pow (e : Z) : 0 ≤ e → SIZE_BASE ^ e = 2 ^ (10 * e).
Proof.
  intros He. change SIZE_BASE with (2 ^ 10).
  rewrite <- Z.pow_mul_r by lia. reflexivity.
Qed.

(** [magnitude] is the floor of the logarithm to base [SIZE_BASE]. *)
Lemma magnitude_spec (bytes : Z) :
  1 ≤ bytes →
  0 ≤ magnitude bytes
  ∧ SIZE_BASE ^ magnitude bytes ≤ bytes < SIZE_BASE ^ (magnitude bytes + 1).
Proof.
  intros Hpos. unfold magnitude. rewrite log2_SIZE_BASE.
  pose proof (Z.log2_nonneg bytes) as Hk.
  destruct (Z.log2_spec bytes) as [Hlo Hhi]; [lia|].
  set (k := Z.log2 bytes) in *.
  assert (0 ≤ k / 10) as He by (apply Z.div_pos; lia).
  pose proof (Z.mul_div_le k 10) as Hdiv1.
  pose proof (Z.mul_succ_div_gt k 10) as Hdiv2.
  split; [exact He|].
  rewrite !SIZE_BASE_pow by lia. split.
  - etrans; [|exact Hlo]. apply Z.pow_le_mono_r; lia.
  - eapply Z.lt_le_trans; [exact Hhi|]. apply Z.pow_le_mono_r; lia.
Qed.

Lemma unitAt_in_table (e : Z) :
  0 ≤ e ≤ 8 → ∃ u, unitAt e = Some u ∧ u ∈ BYTE_SIZES.
Proof.
  intros He. unfold unitAt. rewrite bool_decide_eq_true_2 by lia.
  destruct (lookup_lt_is_Some_2 BYTE_SIZES (Z.to_nat e)) as [u Hu];
    [cbn; lia|].
  exists u. split; [exact Hu|]. eapply list_elem_of_lookup_2. exact Hu.
Qed.

Lemma unitAt_beyond_table (e : Z) : 9 ≤ e → unitAt e = None.
Proof.
  intros He. unfold unitAt. rewrite bool_decide_eq_true_2 by lia.
  apply lookup_ge_None_2. cbn. lia.
Qed.

Lemma endsWith_app (front suffix : string) : endsWith (front +:+ suffix) suffix.
Proof. exists front. reflexivity. Qed.

Lemma lastChar_app (front suffix : string) :
  suffix ≠ "" → lastChar (front +:+ suffix) = lastChar suffix.
Proof.
  intros Hne. induction front as [|c front IH]; [reflexivity|].
  rewrite sapp_cons. cbn [lastChar].
  destruct (front +:+ suffix) eqn:E; [|exact IH].
  destruct front; [|discriminate E]. cbn in E. contradiction.
Qed.

Lemma units_end_in_B (u : string) :
  u ∈ BYTE_SIZES → lastChar u = Some "B"%char.
Proof.
  unfold BYTE_SIZES. rewrite !elem_of_cons, elem_of_nil.
  intros H. repeat (destruct H as [->|H]; [reflexivity|]). contradiction.
Qed.

Lemma undefined_is_no_unit (s : string) :
  endsWith s "undefined" → ¬ ∃ u, u ∈ BYTE_SIZES ∧ endsWith s u.
Proof.
  intros [front ->] (u & Hu & [front' Heq]).
  pose proof (units_end_in_B u Hu) as HB.
  assert (u ≠ "") as Hne by (intros ->; discriminate HB).
  apply (f_equal lastChar) in Heq.
  rewrite !lastChar_app in Heq by (assumption || discriminate).
  rewrite HB in Heq. discriminate Heq.
Qed.

(** C8. The formatting scenarios, with the default of two decimals. *)
Theorem formatBytes_scenarios :
  formatBytesDefault 0 = Returned "0 B"
  ∧ formatBytesDefault 1024 = Returned "1 KB"
  ∧ formatBytesDefault 1536 = Returned "1.5 KB"
  ∧ formatBytesDefault 1234567 = Returned "1.18 MB".
Proof. repeat split; vm_compute; reflexivity. Qed.

Lemma unitAt_outside_table (e : Z) : e < 0 ∨ 9 ≤ e → unitAt e = None.
Proof.
  intros [Hneg|Hbig]; [|apply unitAt_beyond_table; exact Hbig].
  unfold unitAt. rewrite bool_decide_eq_false_2 by lia. reflexivity.
Qed.

(** [formatBytes] is [formatBytesVia] with both computations carried out
    exactly. *)
Lemma formatBytes_via (bytes : Z) (decimals : nat) :
  formatBytes bytes decimals
  = formatBytesVia magnitude exactShown bytes decimals.
Proof. reflexivity. Qed.

(** C9, as the code has it. The exponent is not clamped: the unit is
    [BYTE_SIZES[exponent]] for the exponent as it was computed, whatever
    the floating-point computation made of it. For a positive byte
    count the string ends with the unit the table holds at that index
    when the exponent lies in [0 .. 8]; when it does not, the lookup
    yields [undefined] and the string ends with that word and with none
    of the unit suffixes. *)
Theorem formatBytes_no_clamp (exponentOf : Z → Z)
    (shownOf : Z → Z → nat → string) (bytes : Z) (decimals : nat) :
  1 ≤ bytes → (decimals ≤ 100)%nat →
  ∃ str,
    formatBytesVia exponentOf shownOf bytes decimals = Returned str
    ∧ (0 ≤ exponentOf bytes ≤ 8 →
         ∃ u, BYTE_SIZES !! Z.to_nat (exponentOf bytes) = Some u
              ∧ u ∈ BYTE_SIZES
              ∧ endsWith str (" " +:+ u))
    ∧ (exponentOf bytes < 0 ∨ 9 ≤ exponentOf bytes →
         unitAt (exponentOf bytes) = None
         ∧ endsWith str " undefined"
         ∧ ¬ ∃ u, u ∈ BYTE_SIZES ∧ endsWith str u).
Proof.
  intros Hpos Hdec. unfold formatBytesVia.
  rewrite bool_decide_eq_false_2 by lia.
  rewrite bool_decide_eq_false_2 by lia.
  rewrite bool_decide_eq_false_2 by lia.
  eexists. split; [reflexivity|]. split.
  - intros He.
    destruct (unitAt_in_table _ He) as (u & Hu & Hin).
    exists u. rewrite Hu. cbn [showUnit default].
    unfold unitAt in Hu. rewrite bool_decide_eq_true_2 in Hu by lia.
    split; [exact Hu|]. split; [exact Hin|]. apply endsWith_app.
  - intros He.
    rewrite (unitAt_outside_table _ He). cbn [showUnit default].
    split; [reflexivity|].
    split; [apply endsWith_app|].
    apply undefined_is_no_unit.
    exists (shownOf bytes (exponentOf bytes) decimals +:+ " ").
    rewrite sapp_assoc. reflexivity.
Qed.

(** A count beyond the table: [2^95] bytes are printed with the unit
    [undefined]. Exact arithmetic and doubles agree here: the quotient
    of the logarithms is 9.5 and [2^95 / 1024^9] is 32. *)
Lemma formatBytes_beyond_table :
  formatBytesDefault (2 ^ 95) = Returned "32 undefined"
  ∧ ¬ ∃ u, u ∈ BYTE_SIZES ∧ endsWith "32 undefined" u.
Proof.
  split; [vm_compute; reflexivity|].
  apply undefined_is_no_unit. exists "32 ". reflexivity.
Qed.

(** * Part III: the properties at concrete inputs *)

Lemma sampleRanges_ordered : ordered sampleRanges.
Proof.
  split.
  - repeat constructor; unfold wf; cbn; lia.
  - cbn. repeat split; repeat constructor; lia.
Defined.

Lemma sampleRanges_contiguous : contiguous sampleRanges.
Proof. cbn. repeat split. Defined.

Lemma mergeRanges_coverage_witness :
  ∃ out,
    mergeRanges sampleRanges = Returned out
    ∧ ordered out ∧ nonoverlapping out ∧ contiguous out
    ∧ start <$> head out = start <$> head sampleRanges
    ∧ end_ <$> last out = end_ <$> last sampleRanges
    ∧ ∀ z, covered out z ↔ covered sampleRanges z.
Proof.
  apply (mergeRanges_coverage sampleRanges).
  - discriminate.
  - exact sampleRanges_ordered.
  - exact sampleRanges_contiguous.
Defined.

Lemma mergeRanges_short_witness :
  mergeRanges [mkRange 0 7 "a.js"] = Returned [mkRange 0 7 "a.js"].
Proof. apply (mergeRanges_short [mkRange 0 7 "a.js"]). cbn. lia. Defined.

(** The empty list is not returned as it is: the call throws. *)
Lemma mergeRanges_empty_throws :
  mergeRanges ([] : list (MappingRange string)) = Thrown TypeError
  ∧ mergeRanges ([] : list (MappingRange string)) ≠ Returned [].
Proof. split; [reflexivity | discriminate]. Qed.

Lemma getOccurrencesCount_termination_witness :
  ∃ n, ∀ fuel, (String.length "ababab" + 3 ≤ fuel)%nat →
       getOccurrencesCount fuel "ab" "ababab" = Some n.
Proof.
  apply (proj1 (proj2 getOccurrencesCount_termination) "ab" "ababab").
  discriminate.
Defined.

Lemma getCommonPathPrefix_no_common_prefix_witness :
  getCommonPathPrefix ["a/x"; "b/x"; "c"] = Returned "".
Proof.
  apply (proj2 getCommonPathPrefix_no_common_prefix ["a/x"; "b/x"; "c"]).
  intros p Hp.
  destruct p as [|c p]; [reflexivity|].
  destruct (Hp "a/x") as [ra Ha]; [repeat constructor|].
  destruct (Hp "b/x") as [rb Hb]; [repeat constructor|].
  rewrite sapp_cons in Ha, Hb.
  injection Ha as Ha _. injection Hb as Hb _. congruence.
Defined.

Lemma formatBytes_no_clamp_witness :
  ∃ str,
    formatBytesVia magnitude exactShown 1234567 2 = Returned str
    ∧ (0 ≤ magnitude 1234567 ≤ 8 →
         ∃ u, BYTE_SIZES !! Z.to_nat (magnitude 1234567) = Some u
              ∧ u ∈ BYTE_SIZES
              ∧ endsWith str (" " +:+ u))
    ∧ (magnitude 1234567 < 0 ∨ 9 ≤ magnitude 1234567 →
         unitAt (magnitude 1234567) = None
         ∧ endsWith str " undefined"
         ∧ ¬ ∃ u, u ∈ BYTE_SIZES ∧ endsWith str u).
Proof. apply (formatBytes_no_clamp magnitude exactShown 1234567 2); lia. Defined.

Lemma getCommonPathPrefixRef_frame_witness :
  ∃ r h',
    getCommonPathPrefixRef 1%positive {[ 1%positive := ["b/x"; "a/x"] ]}
    = Returned (r, h')
    ∧ getCommonPathPrefix ["b/x"; "a/x"] = Returned r
    ∧ h' !! 1%positive = Some ["b/x"; "a/x"]
    ∧ ∀ l, l ∈ dom ({[ 1%positive := ["b/x"; "a/x"] ]}
                      : gmap positive (list string)) →
           h' !! l = ({[ 1%positive := ["b/x"; "a/x"] ]}
                      : gmap positive (list string)) !! l.
Proof.
  apply (getCommonPathPrefixRef_frame
           {[ 1%positive := ["b/x"; "a/x"] ]} 1%positive ["b/x"; "a/x"]).
  reflexivity.
Defined.

(** * Part IV: further properties of the helpers *)

(** ** Range merger *)

Section merger_more.
Context {Source : Type} `{!EqDecision Source}.
Implicit Types (r prev : MappingRange Source).
Implicit Types (l rest ranges : list (MappingRange Source)).

Lemma groups_length prev rest s e src :
  (length (groups prev rest s e src) ≤ S (length rest))%nat.
Proof.
  revert prev s e src.
  induction rest as [|r rest IH]; intros prev s e src; cbn [groups length].
  - lia.
  - destruct (_ && _).
    + specialize (IH r s (end_ r) src). lia.
    + specialize (IH r (start r) (end_ r) (source r)). cbn [length]. lia.
Qed.

(** X1. Whatever non-empty list [mergeRanges] is given, no two
    neighbours of the returned list can be merged any further: they
    differ in source or are not byte-adjacent. The list is never empty
    and never longer than the input. *)
Theorem mergeRanges_fully_merged ranges :
  ranges ≠ [] →
  ∃ out, mergeRanges ranges = Returned out
         ∧ out ≠ []
         ∧ (length out ≤ length ranges)%nat
         ∧ adjacent (λ a b, ¬ joinable a b) out.
Proof.
  intros Hne.
  destruct (mergeRanges_returns ranges Hne) as (out & Hout & Hne' & Hsep).
  exists out. repeat (split; [assumption|]). split; [|exact Hsep].
  destruct ranges as [|r0 [|r1 rest]]; [contradiction| |].
  - injection Hout as <-. reflexivity.
  - rewrite mergeRanges_cons2 in Hout.
    assert (out = groups r0 (r1 :: rest) (start r0) (end_ r0) (source r0))
      as -> by congruence.
    apply groups_length.
Qed.

(** X2. A non-empty list comes back unchanged exactly when it has no
    two neighbours with the same source that are byte-adjacent. *)
Theorem mergeRanges_unchanged_iff ranges :
  ranges ≠ [] →
  mergeRanges ranges = Returned ranges
  ↔ adjacent (λ a b, ¬ joinable a b) ranges.
Proof.
  intros Hne. split.
  - intros Heq.
    destruct (mergeRanges_returns ranges Hne) as (out & Hout & _ & Hsep).
    rewrite Heq in Hout. injection Hout as <-. exact Hsep.
  - intros Hsep. apply mergeRanges_fixed; assumption.
Qed.

Lemma groups_bytes (P : Source → bool) prev rest s e src :
  e = end_ prev → src = source prev →
  bytesWhere P (groups prev rest s e src)
  = (if P src then e - s + 1 else 0) + bytesWhere P rest.
Proof.
  revert prev s e src.
  induction rest as [|r rest IH]; intros prev s e src He Hsrc.
  - cbn. unfold rangeSize. cbn. lia.
  - cbn [groups]. destruct (_ && _) eqn:Hj.
    + apply joinable_decide in Hj. destruct Hj as [Hs Hc].
      rewrite (IH r s (end_ r) src) by congruence.
      cbn [bytesWhere]. unfold rangeSize.
      replace (source r) with src by congruence.
      destruct (P src); lia.
    + cbn [bytesWhere]. rewrite (IH r _ _ _ eq_refl eq_refl).
      unfold rangeSize. cbn [bytesWhere start end_ source]. lia.
Qed.

(** X3. Merging moves no byte from one source to another: for every
    selection of sources the selected ranges of the output hold as many
    bytes as those of the input; so does each single source, and so does
    the whole list. *)
Theorem mergeRanges_conserves_bytes ranges :
  ranges ≠ [] →
  ∃ out, mergeRanges ranges = Returned out
         ∧ (∀ P, bytesWhere P out = bytesWhere P ranges)
         ∧ (∀ src, bytesOfSource src out = bytesOfSource src ranges)
         ∧ totalBytes out = totalBytes ranges.
Proof.
  intros Hne.
  assert (∃ out, mergeRanges ranges = Returned out
                 ∧ ∀ P, bytesWhere P out = bytesWhere P ranges)
    as (out & Hout & Hbytes).
  { destruct ranges as [|r0 [|r1 rest]]; [contradiction| |].
    - exists [r0]. split; reflexivity.
    - rewrite mergeRanges_cons2. eexists. split; [reflexivity|].
      intros P. rewrite groups_bytes by reflexivity.
      cbn [bytesWhere]. unfold rangeSize. reflexivity. }
  exists out. split; [exact Hout|]. split; [exact Hbytes|].
  split; [intros src; apply Hbytes | apply Hbytes].
Qed.

Lemma groups_covered prev rest s e src z :
  e = end_ prev → s ≤ e → Forall wf rest →
  covered (groups prev rest s e src) z
  ↔ s ≤ z ≤ e ∨ covered rest z.
Proof.
  unfold covered. revert prev s e src.
  induction rest as [|r rest IH]; intros prev s e src He Hse Hwf.
  - cbn [groups]. rewrite Exists_cons, !Exists_nil. cbn. tauto.
  - apply Forall_cons in Hwf. destruct Hwf as [Hr Hwf]. unfold wf in Hr.
    cbn [groups]. destruct (_ && _) eqn:Hj.
    + apply joinable_decide in Hj. destruct Hj as [_ Hc].
      rewrite (IH r s (end_ r) src eq_refl) by (lia || assumption).
      rewrite Exists_cons. subst e. split; intros H.
      * destruct H as [H|H]; [|tauto].
        destruct (decide (z ≤ end_ prev)); [left; lia | right; left; lia].
      * destruct H as [H|[H|H]]; [left; lia | left; lia | right; exact H].
    + rewrite Exists_cons.
      rewrite (IH r _ _ _ eq_refl Hr Hwf), Exists_cons. cbn. tauto.
Qed.

(** X4. Gaps stay gaps: for any non-empty list of well-formed ranges,
    contiguous or not, the returned list covers exactly the bytes the
    input covers. *)
Theorem mergeRanges_same_bytes_covered ranges :
  ranges ≠ [] → Forall wf ranges →
  ∃ out, mergeRanges ranges = Returned out
         ∧ Forall wf out
         ∧ ∀ z, covered out z ↔ covered ranges z.
Proof.
  intros Hne Hwf.
  destruct ranges as [|r0 [|r1 rest]]; [contradiction| |].
  - exists [r0]. split; [reflexivity|]. split; [exact Hwf | reflexivity].
  - rewrite mergeRanges_cons2. eexists. split; [reflexivity|].
    pose proof Hwf as Hwf0.
    apply Forall_cons in Hwf. destruct Hwf as [Hr0 Hwf].
    split.
    + clear Hwf0 Hne. revert Hr0 Hwf. unfold wf at 1.
      generalize (source r0). generalize (start r0).
      assert (end_ r0 = end_ r0) as He by reflexivity. revert He.
      generalize (end_ r0) at 1 3 4. revert r0.
      generalize (r1 :: rest) as tl.
      induction tl as [|r tl IH]; intros prev e He s src Hse Hwf.
      * repeat constructor. exact Hse.
      * apply Forall_cons in Hwf. destruct Hwf as [Hr Hwf]. unfold wf in Hr.
        cbn [groups]. destruct (_ && _) eqn:Hj.
        -- apply joinable_decide in Hj. destruct Hj as [_ Hc].
           apply IH; [reflexivity | lia | exact Hwf].
        -- constructor; [exact Hse|].
           apply IH; [reflexivity | exact Hr | exact Hwf].
    + intros z. rewrite groups_covered by (reflexivity || assumption).
      unfold covered. rewrite (Exists_cons _ r0). reflexivity.
Qed.

End merger_more.

(** ** Occurrence counter *)

Lemma search_occurs (sub s : string) (k : nat) :
  search sub s = Some k → occursIn sub s.
Proof.
  revert k. induction s as [|c s IH]; intros k.
  - cbn [search]. destruct (String.prefix sub "") eqn:Hp; [|discriminate].
    intros _. apply prefix_isPrefix in Hp. destruct Hp as [rest Hrest].
    exists "", rest. exact Hrest.
  - cbn [search]. destruct (String.prefix sub (String c s)) eqn:Hp.
    + intros _. apply prefix_isPrefix in Hp. destruct Hp as [rest Hrest].
      exists "", rest. exact Hrest.
    + destruct (search sub s) as [j|]; [|discriminate]. intros _.
      destruct (IH j eq_refl) as (front & back & ->).
      exists (String c front), back. reflexivity.
Qed.

Lemma search_none (sub s : string) :
  search sub s = None → ¬ occursIn sub s.
Proof.
  induction s as [|c s IH]; cbn [search].
  - destruct (String.prefix sub "") eqn:Hp; [discriminate|]. intros _.
    intros (front & back & Heq).
    destruct front; [|discriminate Heq].
    assert (String.prefix sub "" = true); [|congruence].
    apply prefix_isPrefix. exists back. exact Heq.
  - destruct (String.prefix sub (String c s)) eqn:Hp; [discriminate|].
    destruct (search sub s) as [j|]; [discriminate|]. intros _.
    intros (front & back & Heq). destruct front as [|d front].
    + assert (String.prefix sub (String c s) = true); [|congruence].
      apply prefix_isPrefix. exists back. exact Heq.
    + rewrite sapp_cons in Heq. injection Heq as _ Heq.
      apply IH; [reflexivity|]. exists front, back. exact Heq.
Qed.

Lemma indexOf_from_start (s sub : string) :
  indexOf s sub 0
  = match search sub s with Some k => Z.of_nat k | None => -1 end.
Proof.
  unfold indexOf.
  replace (Z.min (Z.max 0 0) (Z.of_nat (String.length s))) with 0 by lia.
  cbn [Z.to_nat sdrop]. destruct s; destruct (search sub _); reflexivity.
Qed.

Lemma countLoop_grows (fuel : nat) (sub s : string) (count : nat)
    (position : Z) (n : nat) :
  countLoop fuel sub s count position = Some n → (count ≤ n)%nat.
Proof.
  revert count position. induction fuel as [|fuel IH]; intros count position;
    [discriminate|].
  cbn [countLoop]. destruct (bool_decide _).
  - intros H. apply IH in H. lia.
  - intros [= <-]. lia.
Qed.

(** Every hit leaves room for the hits counted so far. *)
Lemma countLoop_room (fuel : nat) (sub s : string) (count : nat)
    (position : Z) (n : nat) :
  sub ≠ "" →
  (position = -1
   ∧ Z.of_nat (count * String.length sub) ≤ Z.of_nat (String.length s))
  ∨ (0 ≤ position
     ∧ position + Z.of_nat (String.length sub) ≤ Z.of_nat (String.length s)
     ∧ Z.of_nat (count * String.length sub) ≤ position) →
  countLoop fuel sub s count position = Some n →
  (n * String.length sub ≤ String.length s)%nat.
Proof.
  intros Hne. revert count position.
  induction fuel as [|fuel IH]; intros count position Hinv; [discriminate|].
  cbn [countLoop]. destruct (bool_decide _) eqn:Hd.
  - apply bool_decide_eq_true in Hd.
    destruct Hinv as [[Hp _]|(H0 & Hin & Hc)]; [contradiction|].
    apply IH.
    set (next := indexOf s sub (position + Z.of_nat (String.length sub))).
    destruct (decide (next = -1)) as [Hnext|Hnext].
    + left. split; [exact Hnext | lia].
    + right. pose proof (indexOf_hit s sub _ Hne Hnext) as (Hn0 & Hge & Hnin).
      fold next in Hn0, Hge, Hnin. lia.
  - apply bool_decide_eq_false in Hd.
    intros [= <-]. destruct Hinv as [[_ Hc]|(H0 & _)]; lia.
Qed.

(** X5. The occurrences counted do not overlap: for a non-empty needle
    the call returns a count [n] with [n * needle.length <=
    haystack.length]. *)
Theorem getOccurrencesCount_room (sub s : string) :
  sub ≠ "" →
  ∃ n, (∀ fuel, (String.length s + 3 ≤ fuel)%nat →
          getOccurrencesCount fuel sub s = Some n)
       ∧ (n * String.length sub ≤ String.length s)%nat.
Proof.
  intros Hne.
  destruct (getOccurrencesCount_nonempty_needle sub s Hne) as [n Hn].
  exists n. split; [exact Hn|].
  specialize (Hn (String.length s + 3)%nat (Nat.le_refl _)).
  unfold getOccurrencesCount in Hn.
  eapply countLoop_room; [exact Hne| |exact Hn].
  set (first := indexOf s sub 0).
  destruct (decide (first = -1)) as [Hf|Hf].
  - left. split; [exact Hf | lia].
  - right. pose proof (indexOf_hit s sub 0 Hne Hf) as (H0 & _ & Hin).
    fold first in H0, Hin. lia.
Qed.

(** X6. For a non-empty needle the count is zero exactly when the needle
    does not occur in the haystack. *)
Theorem getOccurrencesCount_zero_iff (sub s : string) :
  sub ≠ "" →
  ∃ n, (∀ fuel, (String.length s + 3 ≤ fuel)%nat →
          getOccurrencesCount fuel sub s = Some n)
       ∧ (n = 0%nat ↔ ¬ occursIn sub s).
Proof.
  intros Hne.
  destruct (getOccurrencesCount_nonempty_needle sub s Hne) as [n Hn].
  exists n. split; [exact Hn|].
  specialize (Hn (String.length s + 3)%nat (Nat.le_refl _)).
  unfold getOccurrencesCount in Hn. rewrite indexOf_from_start in Hn.
  replace (String.length s + 3)%nat with (S (String.length s + 2)) in Hn by lia.
  cbn [countLoop] in Hn.
  destruct (search sub s) as [k|] eqn:Hs.
  - rewrite bool_decide_eq_true_2 in Hn by lia.
    apply countLoop_grows in Hn.
    split; [lia|]. intros Hno. exfalso. apply Hno.
    eapply search_occurs. exact Hs.
  - rewrite bool_decide_eq_false_2 in Hn by lia.
    injection Hn as <-. split; [|reflexivity].
    intros _. apply search_none. exact Hs.
Qed.

(** ** Common-prefix resolver *)

(** X7. [getCommonPathPrefix] never throws, and every path it was given
    starts with the string it returns: cutting that many code units off
    the front of each path removes the same text from all of them. *)
Theorem getCommonPathPrefix_is_common_prefix (paths : list string) :
  ∃ r, getCommonPathPrefix paths = Returned r
       ∧ ∀ x, x ∈ paths → isPrefix r x ∧ x = r +:+ sdrop (String.length r) x.
Proof.
  destruct (getCommonPathPrefix_common paths) as (r & Hr & Hcommon).
  exists r. split; [exact Hr|]. intros x Hx.
  pose proof (Hcommon x Hx) as Hp. split; [exact Hp|].
  destruct Hp as [rest ->]. rewrite sdrop_app. reflexivity.
Qed.

(** Two sorted lists with the same elements are the same list. *)
Lemma sorted_unique (l1 l2 : list string) :
  pairwise lebP l1 → pairwise lebP l2 → l1 ≡ₚ l2 → l1 = l2.
Proof.
  revert l2. induction l1 as [|a l1 IH]; intros l2 Hs1 Hs2 Hperm.
  - apply Permutation_nil_l in Hperm. congruence.
  - destruct l2 as [|b l2]; [apply Permutation_nil_r in Hperm; discriminate|].
    cbn [pairwise] in Hs1, Hs2.
    destruct Hs1 as [Ha Hs1], Hs2 as [Hb Hs2].
    rewrite Forall_forall in Ha, Hb.
    assert (a = b) as <-.
    { assert (a ∈ b :: l2) as Hin1 by (rewrite <- Hperm; left).
      assert (b ∈ a :: l1) as Hin2 by (rewrite Hperm; left).
      apply elem_of_cons in Hin1. apply elem_of_cons in Hin2.
      destruct Hin1 as [|Hin1]; [assumption|].
      destruct Hin2 as [|Hin2]; [congruence|].
      apply String.leb_antisym; [apply Ha | apply Hb]; assumption. }
    f_equal. apply IH; [assumption | assumption|].
    eapply Permutation_cons_inv. exact Hperm.
Qed.

(** X8. The answer does not depend on the order in which the paths are
    given. *)
Theorem getCommonPathPrefix_order_independent (paths paths' : list string) :
  paths ≡ₚ paths' → getCommonPathPrefix paths = getCommonPathPrefix paths'.
Proof.
  intros Hperm. unfold getCommonPathPrefix.
  assert (arraySort paths = arraySort paths') as ->.
  { apply sorted_unique; try apply arraySort_sorted.
    rewrite !arraySort_perm. exact Hperm. }
  rewrite (Permutation_length Hperm). reflexivity.
Qed.

Lemma commonTokens_maximal (t1 t2 : list string) :
  t1 !! length (commonTokens t1 t2) ≠ t2 !! length (commonTokens t1 t2)
  ∨ t1 = t2.
Proof.
  revert t2. induction t1 as [|x t1 IH]; intros [|y t2].
  - right. reflexivity.
  - left. discriminate.
  - left. discriminate.
  - cbn [commonTokens]. destruct (decide (x = y)) as [->|Hne].
    + destruct (IH t2) as [Hd | ->]; [left; exact Hd | right; reflexivity].
    + left. cbn. congruence.
Qed.

(** X9. For two paths the answer is made of the longest run of leading
    tokens that the two share: the first [k] tokens of both coincide,
    and unless the paths are equal their tokens at index [k] differ. *)
Theorem getCommonPathPrefix_two_longest (p q : string) :
  ∃ k, getCommonPathPrefix [p; q]
       = Returned (join (take k (splitSeparator p "")))
       ∧ take k (splitSeparator p "") = take k (splitSeparator q "")
       ∧ (splitSeparator p "" !! k ≠ splitSeparator q "" !! k ∨ p = q).
Proof.
  exists (length (commonTokens (splitSeparator p "") (splitSeparator q ""))).
  split; [|split].
  - rewrite getCommonPathPrefix_two, take_commonTokens. reflexivity.
  - rewrite take_commonTokens, commonTokens_prefix_r. reflexivity.
  - destruct (commonTokens_maximal (splitSeparator p "") (splitSeparator q ""))
      as [Hd|Heq]; [left; exact Hd|].
    right. apply (f_equal join) in Heq.
    rewrite !splitSeparator_join in Heq. exact Heq.
Qed.

Lemma commonTokens_same (t : list string) : commonTokens t t = t.
Proof.
  induction t as [|x t IH]; [reflexivity|].
  cbn [commonTokens]. rewrite decide_True by reflexivity.
  rewrite IH. reflexivity.
Qed.

(** X10. Given the same path two or more times and nothing else, the
    whole path is returned as the common prefix. *)
Theorem getCommonPathPrefix_all_equal (paths : list string) (p : string) :
  (2 ≤ length paths)%nat → (∀ x, x ∈ paths → x = p) →
  getCommonPathPrefix paths = Returned p.
Proof.
  intros Hlen Hall.
  destruct (getCommonPathPrefix_ends paths Hlen)
    as (first & final & Hf & Hl & _ & ->).
  rewrite (Hall first Hf), (Hall final Hl).
  cbn [alignedCommonPrefix foldl].
  rewrite commonTokens_same, splitSeparator_join. reflexivity.
Qed.

(** ** Lines and their terminators *)

(** Splitting at a one-unit separator, one code unit at a time. *)
Lemma splitOn_char_step (a c : ascii) (s cur : string) :
  splitOn a "" (String c s) cur
  = if decide (c = a) then cur :: splitOn a "" s ""
    else splitOn a "" s (cur +:+ String c "").
Proof.
  simp splitOn. cbn [String.prefix]. destruct (ascii_dec a c) as [->|Hne].
  - rewrite decide_True by reflexivity. destruct s; reflexivity.
  - rewrite decide_False by congruence. reflexivity.
Qed.

Lemma splitOn_char_length (a : ascii) (s cur : string) :
  length (splitOn a "" s cur) = S (countChar a s).
Proof.
  revert cur. induction s as [|c s IH]; intros cur; [reflexivity|].
  rewrite splitOn_char_step. cbn [countChar].
  destruct (decide (c = a)); [cbn [length]|]; rewrite IH; reflexivity.
Qed.

Lemma countChar_app (a : ascii) (x y : string) :
  countChar a (x +:+ y) = (countChar a x + countChar a y)%nat.
Proof.
  induction x as [|c x IH]; [reflexivity|].
  rewrite sapp_cons. cbn [countChar]. rewrite IH. lia.
Qed.

Lemma splitOn_char_free (a : ascii) (s cur : string) :
  countChar a cur = 0%nat →
  Forall (λ piece, countChar a piece = 0%nat) (splitOn a "" s cur).
Proof.
  revert cur. induction s as [|c s IH]; intros cur Hcur.
  - simp splitOn. repeat constructor. exact Hcur.
  - rewrite splitOn_char_step. destruct (decide (c = a)) as [->|Hne].
    + constructor; [exact Hcur|]. apply IH. reflexivity.
    + apply IH. rewrite countChar_app, Hcur. cbn [countChar].
      rewrite decide_False by exact Hne. reflexivity.
Qed.

Lemma countChar_concat (chunks : list string) :
  chunks ≠ [] →
  S (countChar LF_CHAR (String.concat CR_LF chunks))
  = sum_list ((λ e, S (countChar LF_CHAR e)) <$> chunks).
Proof.
  induction chunks as [|e chunks IH]; [contradiction|]. intros _.
  destruct chunks as [|e' chunks].
  - cbn. lia.
  - rewrite concat_cons by discriminate.
    rewrite !countChar_app. cbn [fmap list_fmap sum_list sum_list_with] in *.
    specialize (IH ltac:(discriminate)).
    change (countChar LF_CHAR CR_LF) with 1%nat. unfold id in *. lia.
Qed.

Lemma reduceFrom_addChunk_length (n i : nat) (chunks : list string)
    (arr : list SplitLine) :
  length (reduceFrom (addChunk n) i chunks arr)
  = (length arr + sum_list ((λ e, S (countChar LF_CHAR e)) <$> chunks))%nat.
Proof.
  revert i arr. induction chunks as [|e chunks IH]; intros i arr.
  - cbn. lia.
  - cbn [reduceFrom]. rewrite IH. unfold addChunk.
    rewrite length_app, length_imap.
    change (split LF e) with (splitOn LF_CHAR "" e "").
    rewrite splitOn_char_length. cbn [fmap list_fmap sum_list sum_list_with].
    unfold id. lia.
Qed.

(** X11. [splitLinesByEOL] returns one entry more than there are line
    feeds in the text: an entry per terminator, bare or after a carriage
    return, and one for what follows the last of them (the whole text
    when there is none, an empty line when the text ends in a
    terminator). *)
Theorem splitLinesByEOL_length (s : string) :
  length (splitLinesByEOL s) = S (countChar LF_CHAR s).
Proof.
  unfold splitLinesByEOL. rewrite reduceFrom_addChunk_length. cbn [length plus].
  rewrite <- countChar_concat by (apply split_nonempty; discriminate).
  rewrite split_concat by discriminate. reflexivity.
Qed.

Lemma Forall_imap_intro {A B} (P : B → Prop) (f : nat → A → B) (l : list A) :
  (∀ j x, P (f j x)) → Forall P (imap f l).
Proof.
  revert f. induction l as [|x l IH]; intros f Hf; [constructor|].
  rewrite imap_cons. constructor; [apply Hf|].
  apply IH. intros j y. apply Hf.
Qed.

Lemma Forall_imap_elem {A B} (P : B → Prop) (Q : A → Prop)
    (f : nat → A → B) (l : list A) :
  Forall Q l → (∀ j x, Q x → P (f j x)) → Forall P (imap f l).
Proof.
  revert f. induction l as [|x l IH]; intros f HQ Hf; [constructor|].
  apply Forall_cons in HQ. destruct HQ as [Hx HQ].
  rewrite imap_cons. constructor; [apply Hf; exact Hx|].
  apply IH; [exact HQ|]. intros j y. apply Hf.
Qed.

Lemma reduceFrom_addChunk_Forall (P : SplitLine → Prop) (n i : nat)
    (chunks : list string) (arr : list SplitLine) :
  Forall P arr →
  (∀ e i, Forall P (addChunk n [] e i)) →
  Forall P (reduceFrom (addChunk n) i chunks arr).
Proof.
  intros Harr Hadd. revert i arr Harr.
  induction chunks as [|e chunks IH]; intros i arr Harr; [exact Harr|].
  cbn [reduceFrom]. apply IH. unfold addChunk.
  apply Forall_app. split; [exact Harr|]. apply (Hadd e i).
Qed.

Lemma final_chunk_tags (n i : nat) (chunks : list string) :
  chunks ≠ [] → (i + length chunks = n)%nat →
  ∃ e, last (reduceFrom (addChunk n) i chunks []) = Some e ∧ eol e = LF.
Proof.
  revert i. induction chunks as [|c chunks IH]; intros i Hne Hlen;
    [contradiction|].
  cbn [reduceFrom]. rewrite reduceFrom_addChunk.
  destruct chunks as [|c' chunks].
  - cbn [reduceFrom]. rewrite app_nil_r.
    pose proof (addChunk_nonempty n i c) as Hnonempty.
    destruct (last (addChunk n [] c i)) as [e|] eqn:Hlast;
      [|apply last_None in Hlast; contradiction].
    exists e. split; [reflexivity|].
    assert (Forall (λ x, eol x = LF) (addChunk n [] c i)) as Hall.
    { unfold addChunk. cbn [app]. apply Forall_imap_intro.
      intros j x. unfold tagLine. cbn [eol length] in *.
      rewrite (bool_decide_eq_true_2 (Z.of_nat i = _)) by lia.
      rewrite orb_true_r. reflexivity. }
    rewrite Forall_forall in Hall. apply Hall.
    eapply last_Some_elem_of. exact Hlast.
  - destruct (IH (S i)) as (e & Hlast & Heol);
      [discriminate | cbn [length] in *; lia|].
    exists e. split; [|exact Heol].
    apply last_app_Some. left. exact Hlast.
Qed.

Lemma splitLinesByEOL_good (s : string) :
  Forall (λ e, countChar LF_CHAR (line e) = 0%nat
               ∧ (eol e = LF ∨ eol e = CR_LF)) (splitLinesByEOL s).
Proof.
  unfold splitLinesByEOL.
  apply reduceFrom_addChunk_Forall; [constructor|].
  intros e i. unfold addChunk. cbn [app].
  eapply Forall_imap_elem.
  - change (split LF e) with (splitOn LF_CHAR "" e "").
    apply splitOn_char_free. reflexivity.
  - intros j x Hx. cbn beta in Hx. unfold tagLine. cbn [line eol].
    split; [exact Hx|]. destruct (_ || _); [left | right]; reflexivity.
Qed.

Lemma splitLinesByEOL_rejoin (s : string) : rejoin (splitLinesByEOL s) = s.
Proof.
  unfold splitLinesByEOL. rewrite rejoin_chunks.
  - apply split_concat. discriminate.
  - apply split_nonempty. discriminate.
  - reflexivity.
Qed.

(** X12. No line of the result holds a line feed, every terminator tag
    is [LF] or [CR_LF], and the final entry is always tagged [LF],
    whatever the text ends with. *)
Theorem splitLinesByEOL_entries (s : string) :
  Forall (λ e, countChar LF_CHAR (line e) = 0%nat
               ∧ (eol e = LF ∨ eol e = CR_LF)) (splitLinesByEOL s)
  ∧ ∃ e, last (splitLinesByEOL s) = Some e ∧ eol e = LF.
Proof.
  split; [apply splitLinesByEOL_good|].
  unfold splitLinesByEOL.
  apply final_chunk_tags; [apply split_nonempty; discriminate | lia].
Qed.

(** ** End of line at a position *)

Lemma sdrop_sdrop (a b : nat) (s : string) :
  sdrop a (sdrop b s) = sdrop (b + a) s.
Proof.
  revert s. induction b as [|b IH]; intros s; [reflexivity|].
  destruct s as [|c s]; [destruct a; reflexivity|]. cbn [sdrop Nat.add].
  apply IH.
Qed.

Lemma indexOf_at (s sub : string) (o : Z) :
  0 ≤ o ≤ Z.of_nat (String.length s) →
  indexOf s sub o
  = match search sub (sdrop (Z.to_nat o) s) with
    | Some k => o + Z.of_nat k
    | None => -1
    end.
Proof.
  intros Ho. unfold indexOf.
  replace (Z.min (Z.max o 0) (Z.of_nat (String.length s))) with o by lia.
  reflexivity.
Qed.

Lemma search_LF_cons (c : ascii) (t : string) :
  search LF (String c t)
  = if decide (c = LF_CHAR) then Some 0%nat else S <$> search LF t.
Proof.
  cbn [search LF String.prefix].
  destruct (ascii_dec "010" c) as [<-|Hne].
  - rewrite decide_True by reflexivity. destruct t; reflexivity.
  - rewrite decide_False by (unfold LF_CHAR; congruence). reflexivity.
Qed.

Lemma search_CR_LF_cons (c : ascii) (t : string) :
  search CR_LF (String c t)
  = if decide (c = CR_CHAR)
    then if String.prefix LF t then Some 0%nat else S <$> search CR_LF t
    else S <$> search CR_LF t.
Proof.
  cbn [search CR_LF String.prefix].
  destruct (ascii_dec "013" c) as [<-|Hne].
  - rewrite decide_True by reflexivity. reflexivity.
  - rewrite decide_False by (unfold CR_CHAR; congruence). reflexivity.
Qed.

(** Where the first carriage return plus line feed lies relative to the
    first line feed: it ends in that line feed or starts after it. *)
Lemma search_terminators (t : string) :
  match search LF t with
  | None => search CR_LF t = None
  | Some j =>
      match search CR_LF t with
      | None => True
      | Some i => S i = j ∨ (j < i)%nat
      end
  end.
Proof.
  induction t as [|c t IH]; [reflexivity|].
  rewrite search_LF_cons, search_CR_LF_cons.
  destruct (decide (c = LF_CHAR)) as [->|Hlf].
  - rewrite decide_False by discriminate.
    destruct (search CR_LF t); cbn; [right; lia | exact I].
  - destruct (decide (c = CR_CHAR)) as [->|Hcr].
    + destruct (String.prefix LF t) eqn:Hp.
      * destruct t as [|d t]; [discriminate Hp|].
        rewrite search_LF_cons.
        cbn [String.prefix LF] in Hp.
        destruct (ascii_dec "010" d) as [<-|]; [|discriminate Hp].
        rewrite decide_True by reflexivity. cbn. left. reflexivity.
      * destruct (search LF t) as [j|], (search CR_LF t) as [i|]; cbn;
          try exact I; try discriminate IH; try reflexivity.
        destruct IH; [left | right]; lia.
    + destruct (search LF t) as [j|], (search CR_LF t) as [i|]; cbn;
        try exact I; try discriminate IH; try reflexivity.
      destruct IH; [left | right]; lia.
Qed.

(** One round of the loop: without a line feed ahead the function gives
    up; otherwise the offset moves right behind the first line feed,
    whether it stands alone or closes a carriage return plus line
    feed. *)
Lemma lineOffsetLoop_step (k : nat) (s : string) (o : Z) :
  0 ≤ o ≤ Z.of_nat (String.length s) →
  lineOffsetLoop (S k) s o
  = match search LF (sdrop (Z.to_nat o) s) with
    | Some j => lineOffsetLoop k s (o + Z.of_nat j + 1)
    | None => None
    end.
Proof.
  intros Ho. cbn [lineOffsetLoop]. rewrite !indexOf_at by exact Ho.
  pose proof (search_terminators (sdrop (Z.to_nat o) s)) as Hrel.
  destruct (search LF _) as [j|], (search CR_LF _) as [i|];
    try discriminate Hrel.
  - rewrite (bool_decide_eq_false_2 (o + Z.of_nat i = -1)) by lia.
    rewrite (bool_decide_eq_false_2 (o + Z.of_nat j = -1)) by lia.
    cbn [andb]. destruct Hrel as [<-|Hlt].
    + replace (Z.min (o + Z.of_nat i) (o + Z.of_nat (S i)))
        with (o + Z.of_nat i) by lia.
      rewrite bool_decide_eq_true_2 by reflexivity.
      f_equal. cbn [CR_LF String.length]. lia.
    + replace (Z.min (o + Z.of_nat i) (o + Z.of_nat j))
        with (o + Z.of_nat j) by lia.
      rewrite bool_decide_eq_false_2 by lia.
      f_equal.
  - rewrite (bool_decide_eq_true_2 (-1 = -1)) by reflexivity.
    rewrite (bool_decide_eq_false_2 (o + Z.of_nat j = -1)) by lia.
    cbn [andb]. reflexivity.
  - reflexivity.
Qed.

(** The loop and [afterLines] agree: the offset reached is where the
    text after the line feeds begins. *)
Lemma lineOffsetLoop_afterLines (k : nat) (s : string) (o : Z) :
  0 ≤ o ≤ Z.of_nat (String.length s) →
  match lineOffsetLoop k s o, afterLines k (sdrop (Z.to_nat o) s) with
  | Some o', Some t =>
      0 ≤ o' ≤ Z.of_nat (String.length s) ∧ sdrop (Z.to_nat o') s = t
  | None, None => True
  | _, _ => False
  end.
Proof.
  revert o. induction k as [|k IH]; intros o Ho.
  - cbn [lineOffsetLoop afterLines]. split; [exact Ho | reflexivity].
  - rewrite lineOffsetLoop_step by exact Ho.
    cbn [afterLines]. unfold afterLineFeed.
    destruct (search LF (sdrop (Z.to_nat o) s)) as [j|] eqn:Hs; [|exact I].
    pose proof (search_bound LF _ j ltac:(discriminate) Hs) as Hb.
    rewrite slen_sdrop in Hb. cbn [LF String.length] in Hb.
    rewrite sdrop_sdrop.
    replace (Z.to_nat o + S j)%nat with (Z.to_nat (o + Z.of_nat j + 1)) by lia.
    apply IH. lia.
Qed.

Lemma substr_at (s : string) (o column n : Z) :
  0 ≤ o ≤ Z.of_nat (String.length s) → 0 ≤ column →
  substr s (o + column) n
  = stake (Z.to_nat n) (sdrop (Z.to_nat column) (sdrop (Z.to_nat o) s)).
Proof.
  intros Ho Hc. unfold substr.
  rewrite bool_decide_eq_false_2 by lia. rewrite sdrop_sdrop. f_equal.
  destruct (decide (o + column ≤ Z.of_nat (String.length s))) as [Hle|Hgt].
  - f_equal. lia.
  - rewrite !sdrop_all by lia. reflexivity.
Qed.

Lemma isEOLAtPosition_spec (s : string) (line_ column : Z) :
  0 ≤ column →
  isEOLAtPosition s line_ column
  = match afterLines (Z.to_nat (line_ - 1)) s with
    | Some t => startsWithEOL (sdrop (Z.to_nat column) t)
    | None => false
    end.
Proof.
  intros Hc. unfold isEOLAtPosition.
  pose proof (lineOffsetLoop_afterLines (Z.to_nat (line_ - 1)) s 0
                ltac:(lia)) as Hloop.
  change (sdrop (Z.to_nat 0) s) with s in Hloop.
  destruct (lineOffsetLoop _ s 0) as [o|], (afterLines _ s) as [t|];
    try contradiction; [|reflexivity].
  destruct Hloop as [Ho <-].
  rewrite !substr_at by assumption. reflexivity.
Qed.

(** X13. The offset arithmetic of [isEOLAtPosition] amounts to this:
    drop the text up to and including its [(line - 1)]-th line feed,
    move [column] code units on, and answer whether a terminator starts
    there; with fewer line feeds than that the answer is [false]. Holds
    for every non-negative column. *)
Theorem isEOLAtPosition_after_lines (s : string) (line_ column : Z) :
  0 ≤ column →
  isEOLAtPosition s line_ column
  = match afterLines (Z.to_nat (line_ - 1)) s with
    | Some t => startsWithEOL (sdrop (Z.to_nat column) t)
    | None => false
    end.
Proof. apply isEOLAtPosition_spec. Qed.

Lemma search_LF_count (t : string) :
  match search LF t with
  | Some j => countChar LF_CHAR t = S (countChar LF_CHAR (sdrop (S j) t))
  | None => countChar LF_CHAR t = 0%nat
  end.
Proof.
  induction t as [|c t IH]; [reflexivity|].
  rewrite search_LF_cons. cbn [countChar].
  destruct (decide (c = LF_CHAR)) as [->|Hne].
  - cbn [sdrop]. destruct t; reflexivity.
  - destruct (search LF t) as [j|]; cbn [fmap option_fmap option_map sdrop];
      rewrite IH; reflexivity.
Qed.

Lemma afterLines_none (k : nat) (t : string) :
  afterLines k t = None ↔ (countChar LF_CHAR t < k)%nat.
Proof.
  revert t. induction k as [|k IH]; intros t; cbn [afterLines].
  - split; [discriminate | lia].
  - unfold afterLineFeed. pose proof (search_LF_count t) as Hc.
    destruct (search LF t) as [j|].
    + rewrite IH, Hc. lia.
    + rewrite Hc. split; [lia | reflexivity].
Qed.

(** X14. A line that the text does not have holds no end of line:
    when the text has fewer than [line - 1] line feeds the answer is
    [false], at every column. *)
Theorem isEOLAtPosition_missing_line (s : string) (line_ column : Z) :
  Z.of_nat (countChar LF_CHAR s) < line_ - 1 →
  isEOLAtPosition s line_ column = false.
Proof.
  intros Hfew. unfold isEOLAtPosition.
  pose proof (lineOffsetLoop_afterLines (Z.to_nat (line_ - 1)) s 0
                ltac:(lia)) as Hloop.
  change (sdrop (Z.to_nat 0) s) with s in Hloop.
  assert (afterLines (Z.to_nat (line_ - 1)) s = None) as Hnone
    by (apply afterLines_none; lia).
  rewrite Hnone in Hloop.
  destruct (lineOffsetLoop _ s 0); [contradiction | reflexivity].
Qed.

Lemma search_LF_line (l r : string) :
  countChar LF_CHAR l = 0%nat →
  search LF (l +:+ LF +:+ r) = Some (String.length l).
Proof.
  induction l as [|c l IH]; intros Hl.
  - change ("" +:+ LF +:+ r) with (String LF_CHAR r).
    rewrite search_LF_cons, decide_True by reflexivity. reflexivity.
  - rewrite sapp_cons, search_LF_cons. cbn [countChar] in Hl.
    destruct (decide (c = LF_CHAR)); [lia|].
    rewrite IH by lia. reflexivity.
Qed.

Lemma afterLineFeed_entry (l e r : string) :
  countChar LF_CHAR l = 0%nat → e = LF ∨ e = CR_LF →
  afterLineFeed (l +:+ e +:+ r) = Some r.
Proof.
  intros Hl [->| ->]; unfold afterLineFeed.
  - rewrite search_LF_line by exact Hl. f_equal.
    change (S (String.length l)) with (1 + String.length l)%nat.
    rewrite Nat.add_comm, <- sdrop_sdrop, sdrop_app. reflexivity.
  - change (l +:+ CR_LF +:+ r)
      with (l +:+ String CR_CHAR (LF +:+ r)).
    replace (l +:+ String CR_CHAR (LF +:+ r))
      with ((l +:+ String CR_CHAR "") +:+ LF +:+ r)
      by (rewrite sapp_assoc; reflexivity).
    rewrite search_LF_line
      by (rewrite countChar_app, Hl; reflexivity).
    f_equal.
    change (S (String.length (l +:+ String CR_CHAR "")))
      with (1 + String.length (l +:+ String CR_CHAR ""))%nat.
    rewrite Nat.add_comm, <- sdrop_sdrop, sdrop_app. reflexivity.
Qed.

Lemma rejoin_cons (e : SplitLine) (rest : list SplitLine) :
  rest ≠ [] → rejoin (e :: rest) = line e +:+ eol e +:+ rejoin rest.
Proof. destruct rest; [contradiction | reflexivity]. Qed.

Lemma afterLines_rejoin (k : nat) (entries : list SplitLine) :
  Forall (λ e, countChar LF_CHAR (line e) = 0%nat
               ∧ (eol e = LF ∨ eol e = CR_LF)) entries →
  (k < length entries)%nat →
  afterLines k (rejoin entries) = Some (rejoin (drop k entries)).
Proof.
  revert entries. induction k as [|k IH]; intros entries Hgood Hk.
  - reflexivity.
  - destruct entries as [|e [|e' rest]]; cbn [length] in Hk; try lia.
    apply Forall_cons in Hgood. destruct Hgood as [[Hline Heol] Hgood].
    rewrite rejoin_cons by discriminate.
    cbn [afterLines drop]. rewrite afterLineFeed_entry by assumption.
    apply IH; [exact Hgood | cbn [length]; lia].
Qed.

Lemma startsWithEOL_eol (e r : string) :
  e = LF ∨ e = CR_LF → startsWithEOL (e +:+ r) = true.
Proof.
  intros [->| ->]; unfold startsWithEOL.
  - rewrite (bool_decide_eq_true_2 (stake 1 _ = LF)) by reflexivity.
    apply orb_true_r.
  - rewrite (bool_decide_eq_true_2 (stake 2 _ = CR_LF)) by reflexivity.
    reflexivity.
Qed.

(** X15. [isEOLAtPosition] and [splitLinesByEOL] agree on where lines
    end: for the entry at index [k] of [splitLinesByEOL s], the position
    (line [k + 1], column = length of that line) is an end of line if
    the entry is not the final one, and is not if it is the final one,
    where the text ends. *)
Theorem isEOLAtPosition_line_ends (s : string) (k : nat) (e : SplitLine) :
  splitLinesByEOL s !! k = Some e →
  isEOLAtPosition s (Z.of_nat k + 1) (Z.of_nat (String.length (line e)))
  = bool_decide (S k < length (splitLinesByEOL s))%nat.
Proof.
  intros Hk. rewrite isEOLAtPosition_spec by lia.
  replace (Z.to_nat (Z.of_nat k + 1 - 1)) with k by lia.
  rewrite Nat2Z.id.
  pose proof (lookup_lt_Some _ _ _ Hk) as Hlt.
  rewrite <- (splitLinesByEOL_rejoin s) at 1.
  rewrite afterLines_rejoin by (apply splitLinesByEOL_good || exact Hlt).
  rewrite (drop_S _ _ _ Hk).
  pose proof (splitLinesByEOL_good s) as Hgood.
  rewrite Forall_forall in Hgood.
  destruct (Hgood e (list_elem_of_lookup_2 _ _ _ Hk)) as [_ Heol].
  destruct (drop (S k) (splitLinesByEOL s)) as [|e' rest] eqn:Hrest.
  - apply (f_equal length) in Hrest. rewrite length_drop in Hrest.
    cbn [length] in Hrest.
    rewrite bool_decide_eq_false_2 by lia.
    cbn [rejoin]. rewrite <- (sapp_nil_r (line e)) at 2.
    rewrite sdrop_app. reflexivity.
  - apply (f_equal length) in Hrest. rewrite length_drop in Hrest.
    cbn [length] in Hrest.
    rewrite bool_decide_eq_true_2 by lia.
    rewrite rejoin_cons by discriminate. rewrite sdrop_app.
    apply startsWithEOL_eol. exact Heol.
Qed.

(** * Part V: the further properties at concrete inputs *)

Lemma mergeRanges_fully_merged_witness :
  ∃ out, mergeRanges sampleRanges = Returned out
         ∧ out ≠ []
         ∧ (length out ≤ length sampleRanges)%nat
         ∧ adjacent (λ a b, ¬ joinable a b) out.
Proof. apply (mergeRanges_fully_merged sampleRanges). discriminate. Defined.

Lemma mergeRanges_unchanged_iff_witness :
  mergeRanges sampleRanges = Returned sampleRanges
  ↔ adjacent (λ a b, ¬ joinable a b) sampleRanges.
Proof. apply (mergeRanges_unchanged_iff sampleRanges). discriminate. Defined.

Lemma mergeRanges_conserves_bytes_witness :
  ∃ out, mergeRanges sampleRanges = Returned out
         ∧ (∀ P, bytesWhere P out = bytesWhere P sampleRanges)
         ∧ (∀ src, bytesOfSource src out = bytesOfSource src sampleRanges)
         ∧ totalBytes out = totalBytes sampleRanges.
Proof. apply (mergeRanges_conserves_bytes sampleRanges). discriminate. Defined.

Lemma mergeRanges_same_bytes_covered_witness :
  ∃ out, mergeRanges sampleRanges = Returned out
         ∧ Forall wf out
         ∧ ∀ z, covered out z ↔ covered sampleRanges z.
Proof.
  apply (mergeRanges_same_bytes_covered sampleRanges).
  - discriminate.
  - exact (proj1 sampleRanges_ordered).
Defined.

Lemma getOccurrencesCount_room_witness :
  ∃ n, (∀ fuel, (String.length "ababab" + 3 ≤ fuel)%nat →
          getOccurrencesCount fuel "ab" "ababab" = Some n)
       ∧ (n * String.length "ab" ≤ String.length "ababab")%nat.
Proof. apply (getOccurrencesCount_room "ab" "ababab"). discriminate. Defined.

Lemma getOccurrencesCount_zero_iff_witness :
  ∃ n, (∀ fuel, (String.length "ababab" + 3 ≤ fuel)%nat →
          getOccurrencesCount fuel "ba" "ababab" = Some n)
       ∧ (n = 0%nat ↔ ¬ occursIn "ba" "ababab").
Proof.
  apply (getOccurrencesCount_zero_iff "ba" "ababab"). discriminate.
Defined.

Lemma getCommonPathPrefix_order_independent_witness :
  getCommonPathPrefix ["b/x"; "a/x"; "a/y"]
  = getCommonPathPrefix ["a/x"; "b/x"; "a/y"].
Proof.
  apply (getCommonPathPrefix_order_independent
           ["b/x"; "a/x"; "a/y"] ["a/x"; "b/x"; "a/y"]).
  apply perm_swap.
Defined.

Lemma getCommonPathPrefix_all_equal_witness :
  getCommonPathPrefix ["src/a.js"; "src/a.js"] = Returned "src/a.js".
Proof.
  apply (getCommonPathPrefix_all_equal ["src/a.js"; "src/a.js"] "src/a.js").
  - cbn. lia.
  - intros x Hx. rewrite !elem_of_cons, elem_of_nil in Hx.
    destruct Hx as [->|[->|[]]]; reflexivity.
Defined.

Lemma isEOLAtPosition_after_lines_witness :
  isEOLAtPosition (String "a" (CR_LF +:+ "bc" +:+ LF)) 2 2
  = match afterLines (Z.to_nat (2 - 1)) (String "a" (CR_LF +:+ "bc" +:+ LF)) with
    | Some t => startsWithEOL (sdrop (Z.to_nat 2) t)
    | None => false
    end.
Proof.
  apply (isEOLAtPosition_after_lines (String "a" (CR_LF +:+ "bc" +:+ LF)) 2 2).
  lia.
Defined.

Lemma isEOLAtPosition_missing_line_witness :
  isEOLAtPosition (String "a" (CR_LF +:+ "bc")) 3 0 = false.
Proof.
  apply (isEOLAtPosition_missing_line (String "a" (CR_LF +:+ "bc")) 3 0).
  vm_compute. reflexivity.
Defined.

Lemma isEOLAtPosition_line_ends_witness :
  isEOLAtPosition (String "a" (CR_LF +:+ "bc" +:+ LF)) (Z.of_nat 1 + 1)
    (Z.of_nat (String.length (line (mkSplitLine "bc" LF))))
  = bool_decide
      (2 < length (splitLinesByEOL (String "a" (CR_LF +:+ "bc" +:+ LF))))%nat.
Proof.
  apply (isEOLAtPosition_line_ends
           (String "a" (CR_LF +:+ "bc" +:+ LF)) 1 (mkSplitLine "bc" LF)).
  reflexivity.
Defined.
